(** * Simon: the turn-taking engine of [simon/main.go]

    A shallow embedding of the game logic of the Simon memory game:
    the [Sequence] type with its four methods, the body of the event
    loop ([loop]) and the closures it hands to [time.AfterFunc],
    followed by the properties of the specification.

    Conventions.
    - Go's [int] is embedded as [Z].  The only arithmetic on it is
      [s.lindex++], executed when [s.lindex < len(s.list)], so the
      increment never leaves the range of [int].
    - A run-time panic (index out of range, [rand.Intn] with a
      non-positive bound) is the result [None].
    - The pseudo-random generator is an input: every call that may draw
      a number receives the generator's next raw output. *)

From Stdlib Require Import ZArith List Bool String Ascii Lia.
Import ListNotations.
Open Scope Z_scope.

(** The record below has a field called [list], as in the source; the
    type of Go slices is written [slice]. *)
Abbreviation slice := Datatypes.list (only parsing).

(* ================================================================= *)
(** ** math/rand *)

(** [rand.Int31n(n)] and [rand.Int63n(n)]: for a power of two the
    generator's output is masked, otherwise the accepted draw is reduced
    modulo [n].  [raw] is the (accepted) output of the generator. *)
Definition Int31n (n raw : Z) : Z :=
  if Z.land n (n - 1) =? 0 then Z.land raw (n - 1) else raw mod n.

Definition Int63n (n raw : Z) : Z :=
  if Z.land n (n - 1) =? 0 then Z.land raw (n - 1) else raw mod n.

(** [rand.Intn(n)]: panics when [n <= 0]. *)
Definition Intn (n raw : Z) : option Z :=
  if n <=? 0 then None
  else if n <=? 2 ^ 31 - 1 then Some (Int31n n raw)
  else Some (Int63n n raw).

(* ================================================================= *)
(** ** Sequence *)

Record Sequence : Type := mkSequence {
  list   : slice Z;
  lindex : Z;
  maxval : Z
}.

(** [s.list[i]]: panics outside [0 <= i < len(s.list)]. *)
Definition index (l : slice Z) (i : Z) : option Z :=
  if i <? 0 then None else nth_error l (Z.to_nat i).

Definition len (l : slice Z) : Z := Z.of_nat (Datatypes.length l).

Definition Len (s : Sequence) : Z := len (list s).

Definition Reset (add : bool) (raw : Z) (s : Sequence) : option Sequence :=
  let s := mkSequence (list s) 0 (maxval s) in
  if add then
    match Intn (maxval s) raw with
    | None => None
    | Some x => Some (mkSequence (list s ++ [x]) (lindex s) (maxval s))
    end
  else Some s.

Definition Next (s : Sequence) : option (Z * Sequence) :=
  if lindex s =? len (list s) then Some (-1, s)
  else
    match index (list s) (lindex s) with
    | None => None
    | Some curr => Some (curr, mkSequence (list s) (lindex s + 1) (maxval s))
    end.

Definition HasNext (s : Sequence) : bool :=
  lindex s <? len (list s).

(** The four methods as operations on a [*Sequence], with what they
    return; [Len] and [HasNext] assign to no field. *)
Inductive Op : Type :=
| OpLen
| OpReset (add : bool) (raw : Z)
| OpNext
| OpHasNext.

Inductive Value : Type :=
| VInt (n : Z)
| VBool (b : bool)
| VNone.

Definition call (op : Op) (s : Sequence) : option (Value * Sequence) :=
  match op with
  | OpLen => Some (VInt (Len s), s)
  | OpReset add raw =>
      match Reset add raw s with
      | None => None
      | Some s' => Some (VNone, s')
      end
  | OpNext =>
      match Next s with
      | None => None
      | Some (v, s') => Some (VInt v, s')
      end
  | OpHasNext => Some (VBool (HasNext s), s)
  end.

(** The package-level variable [sequence = Sequence{maxval: 4}]. *)
Definition sequence0 : Sequence := mkSequence [] 0 4.

(** [n] successive calls of [Next], collecting what they return. *)
Fixpoint replay (n : nat) (s : Sequence) : option (slice Z * Sequence) :=
  match n with
  | O => Some ([], s)
  | S n' =>
      match Next s with
      | None => None
      | Some (v, s') =>
          match replay n' s' with
          | None => None
          | Some (vs, s'') => Some (v :: vs, s'')
          end
      end
  end.

(** The states the program's [sequence] can be in: the initial value and
    whatever [Reset] and [Next] make of it. *)
Inductive reachable : Sequence -> Prop :=
| reach_init : reachable sequence0
| reach_Reset : forall add raw s s',
    reachable s -> Reset add raw s = Some s' -> reachable s'
| reach_Next : forall s v s',
    reachable s -> Next s = Some (v, s') -> reachable s'.

(** A Symbol: a pad number below the bound [k]. *)
Definition Symbol (k x : Z) : Prop := 0 <= x < k.

(** The cursor invariant of the data model. *)
Definition cursor_ok (s : Sequence) : Prop := 0 <= lindex s <= Len s.

(** Cursor in range and every stored value a Symbol. *)
Definition Inv (s : Sequence) : Prop :=
  cursor_ok s /\ Forall (Symbol (maxval s)) (list s).

(* ================================================================= *)
(** ** The event loop *)

(** [playInterval] and [resetTime], in milliseconds. *)
Definition playInterval : Z := 500.
Definition resetTime : Z := 1000.

(** The indices of [pads], in the order in which [grid.Layout] lays the
    pads out. *)
Definition pads : slice Z := [0; 1; 2; 3].

(** The functions handed to [time.AfterFunc]. *)
Inductive Callback : Type :=
| CbInvalidate   (* [w.Invalidate], scheduled during Simon's turn *)
| CbLongest      (* the closure scheduled on a mismatch *)
| CbClose        (* the closure scheduled by [CbLongest] *)
| CbSimonPlay.   (* the closure scheduled when the sequence is used up *)

(** What [log.Println] prints. *)
Inductive Line : Type :=
| simon_play                      (* "simon play..." *)
| user_play                       (* "user play..." *)
| play (n : Z)                    (* "play", i+1 *)
| simon_user (simon user : Z)     (* "simon", simon+1, "user", user+1 *)
| Longest_correct_sequence (n : Z).

(** The samples of the audio module, which is not part of the model:
    one per pad, and [audioBuzz]. *)
Inductive Sample : Type :=
| padSample (i : Z)
| audioBuzz.

(** The calls the loop makes to its collaborators. *)
Inductive Effect : Type :=
| Println (l : Line)
| audioPlay (a : Sample)
| AfterFunc (d : Z) (f : Callback)
| Invalidate
| Close
| Layout (i : Z) (active : bool)   (* [pad.Layout(gtx, th, selected == i)] *)
| Frame.                           (* [e.Frame(gtx.Ops)] *)

(** The locals of [loop] that outlive an iteration, and the global
    [sequence]. *)
Record Game : Type := mkGame {
  simonPlay   : bool;
  terminating : bool;
  selected    : Z;
  sequence    : Sequence
}.

(** [pointer.Event.Type]; [Other] stands for every other type and for an
    event that is no [pointer.Event] (the failed type assertion yields the
    zero event). *)
Inductive PointerType : Type := Press | Release | Other.

(** What a [system.FrameEvent] lets the loop read: the queued events of
    each pad's tag, and the value of the audio module's [audioPlaying]
    when pad [i] reads it. *)
Record FrameEvent : Type := mkFrameEvent {
  Events       : Z -> slice PointerType;
  audioPlaying : Z -> bool
}.

Inductive KeyState : Type := KeyPress | KeyRelease.

Inductive Event : Type :=
| DestroyEvent (err : option string)
| FrameEv (e : FrameEvent)
| KeyEvent (state : KeyState) (name : string)
| OtherEvent.

(** [gtx.Events(pad.label)]: a disabled context delivers no events. *)
Definition gtxEvents (disabled : bool) (e : FrameEvent) (i : Z)
  : slice PointerType :=
  if disabled then [] else Events e i.

(** The [for _, ev := range gtx.Events(pad.label)] loop of pad [i]. *)
Definition scan (i : Z) (evs : slice PointerType) (user : Z) : Z :=
  fold_left (fun user ev =>
               match ev with
               | Press => i
               | Release => -1
               | Other => user
               end) evs user.

(** The locals [user] and [selected] shared by the four calls of the
    closure given to [grid.Layout], with the effects issued so far. *)
Definition Locals : Type := Z * Z * slice Effect.

(** One call of the closure given to [grid.Layout], for pad [i]. *)
Definition layoutPad (simonPlay disabled : bool) (e : FrameEvent) (i : Z)
    (st : Locals) : Locals :=
  let '(user, selected, out) := st in
  let '(user, selected) :=
    if negb simonPlay then
      if selected >=? 0 then (selected, selected)
      else
        let user := scan i (gtxEvents disabled e i) user in
        (user, user)
    else (user, selected) in
  let out :=
    if (selected =? i) && negb (audioPlaying e i)
    then out ++ [Println (play (i + 1)); audioPlay (padSample selected)]
    else out in
  (user, selected, out ++ [Layout i (selected =? i)]).

(** [user := -1] followed by [grid.Layout(gtx, len(pads), ...)]. *)
Definition grid (simonPlay disabled : bool) (e : FrameEvent) (selected : Z)
  : Locals :=
  fold_left (fun st i => layoutPad simonPlay disabled e i st)
            pads (-1, selected, []).

(** The [if simonPlay { ... }] block of a frame. *)
Definition simonTurn (g : Game) : option (Game * slice Effect) :=
  if simonPlay g then
    match Next (sequence g) with
    | None => None
    | Some (simon, sq) =>
        if simon >=? 0 then
          Some (mkGame true (terminating g) simon sq,
                [AfterFunc playInterval CbInvalidate])
        else
          match Reset false 0 sq with
          | None => None
          | Some sq' =>
              Some (mkGame false (terminating g) (selected g) sq',
                    [Println user_play])
          end
    end
  else Some (g, []).

(** The guard [!simonPlay && user >= 0] of the judging block. *)
Definition judging (user : Z) (g : Game) : bool :=
  negb (simonPlay g) && (user >=? 0).

(** The judging block: the only call of [Next] outside Simon's turn. *)
Definition judge (user : Z) (g : Game) : option (Game * slice Effect) :=
  if judging user g then
    match Next (sequence g) with
    | None => None
    | Some (simon, sq) =>
        let g := mkGame (simonPlay g) (terminating g) (selected g) sq in
        let '(g, out) :=
          if simon >=? 0 then
            if negb (simon =? user) then
              (mkGame (simonPlay g) true (selected g) (sequence g),
               [Println (simon_user (simon + 1) (user + 1));
                AfterFunc playInterval CbLongest])
            else (g, [Println (simon_user (simon + 1) (user + 1))])
          else (g, []) in
        if negb (terminating g) && negb (HasNext (sequence g))
        then Some (g, out ++ [AfterFunc resetTime CbSimonPlay])
        else Some (g, out)
    end
  else Some (g, []).

(** The [system.FrameEvent] case. *)
Definition frame (e : FrameEvent) (g : Game) : option (Game * slice Effect) :=
  let disabled := simonPlay g || terminating g in
  match simonTurn g with
  | None => None
  | Some (g1, out1) =>
      let '(user, sel, out2) := grid (simonPlay g1) disabled e (selected g1) in
      let g2 := mkGame (simonPlay g1) (terminating g1) sel (sequence g1) in
      match judge user g2 with
      | None => None
      | Some (g3, out3) =>
          Some (mkGame (simonPlay g3) (terminating g3) (-1) (sequence g3),
                out1 ++ out2 ++ out3 ++ [Frame])
      end
  end.

(** The selection the judging block of a frame receives. *)
Definition frameUser (e : FrameEvent) (g : Game) : Z :=
  fst (fst (grid (simonPlay g) (simonPlay g || terminating g) e (selected g))).

(** [int(e.Name[0] - '1')], a subtraction of bytes. *)
Definition keyIndex (name : string) : Z :=
  match name with
  | String c _ => (Z.of_nat (nat_of_ascii c) - 49) mod 256
  | EmptyString => 0
  end.

(** The [key.Event] case. *)
Definition keyEvent (state : KeyState) (name : string) (g : Game)
  : Game * slice Effect :=
  match state with
  | KeyPress =>
      if ((name =? "1") || (name =? "2") || (name =? "3") || (name =? "4"))%string
      then
        if negb (simonPlay g)
        then (mkGame (simonPlay g) (terminating g) (keyIndex name) (sequence g),
              [Invalidate])
        else (g, [])
      else if ((name =? "X") || (name =? "Q"))%string then (g, [Close])
      else (g, [])
  | KeyRelease =>
      (mkGame (simonPlay g) (terminating g) (-1) (sequence g), [Invalidate])
  end.

(** The body of a function given to [time.AfterFunc]; the Go runtime
    calls it in a goroutine of its own when the timer expires. *)
Definition fire (f : Callback) (raw : Z) (g : Game)
  : option (Game * slice Effect) :=
  match f with
  | CbInvalidate => Some (g, [Invalidate])
  | CbLongest =>
      Some (g, [Println (Longest_correct_sequence (Len (sequence g) - 1));
                audioPlay audioBuzz;
                AfterFunc resetTime CbClose])
  | CbClose => Some (g, [Close])
  | CbSimonPlay =>
      match Reset true raw (sequence g) with
      | None => None
      | Some sq =>
          Some (mkGame true (terminating g) (selected g) sq,
                [Println simon_play; Invalidate])
      end
  end.

(** What one iteration of [for { e := <-w.Events() ... }] comes to. *)
Inductive Outcome : Type :=
| Continue (g : Game) (out : slice Effect)
| Return (err : option string)
| Panic.

Definition handle (ev : Event) (g : Game) : Outcome :=
  match ev with
  | DestroyEvent err => Return err
  | FrameEv e =>
      match frame e g with
      | Some (g', out) => Continue g' out
      | None => Panic
      end
  | KeyEvent state name =>
      let '(g', out) := keyEvent state name g in Continue g' out
  | OtherEvent => Continue g []
  end.

(** [loop] up to its [for]: the locals and [sequence.Reset(true)]. *)
Definition start (raw : Z) : option (Game * slice Effect) :=
  match Reset true raw sequence0 with
  | None => None
  | Some sq => Some (mkGame true false (-1) sq, [Println simon_play])
  end.

(* ================================================================= *)
(** ** The loop with its timers *)

(** The game, the pending timers with their deadlines, the time and
    everything issued so far. *)
Record World : Type := mkWorld {
  game   : Game;
  timers : slice (Z * Callback);
  clock  : Z;
  output : slice Effect
}.

(** The timers started by the [AfterFunc] calls of [out] at time [now]. *)
Fixpoint schedule (now : Z) (out : slice Effect) : slice (Z * Callback) :=
  match out with
  | [] => []
  | AfterFunc d f :: out' => (now + d, f) :: schedule now out'
  | _ :: out' => schedule now out'
  end.

(** The pending timer that expires first, and the others. *)
Fixpoint earliest (ts : slice (Z * Callback))
  : option (Z * Callback * slice (Z * Callback)) :=
  match ts with
  | [] => None
  | t :: ts' =>
      match earliest ts' with
      | None => Some (t, [])
      | Some (t', rest) =>
          if fst t <=? fst t' then Some (t, ts') else Some (t', t :: rest)
      end
  end.

(** What happens to the program: the window delivers an event at time
    [at], or the earliest timer expires (the generator then yields
    [raw]).  An event is delivered only once every timer due before it
    has expired. *)
Inductive Input : Type :=
| Deliver (at_ : Z) (ev : Event)
| Expire (raw : Z).

Definition step (i : Input) (w : World) : option World :=
  match i with
  | Deliver at_ ev =>
      if (clock w <=? at_) && forallb (fun t => at_ <=? fst t) (timers w) then
        match handle ev (game w) with
        | Continue g out =>
            Some (mkWorld g (timers w ++ schedule at_ out) at_ (output w ++ out))
        | _ => None
        end
      else None
  | Expire raw =>
      match earliest (timers w) with
      | None => None
      | Some (t, f, rest) =>
          let now := Z.max (clock w) t in
          match fire f raw (game w) with
          | Some (g, out) =>
              Some (mkWorld g (rest ++ schedule now out) now (output w ++ out))
          | None => None
          end
      end
  end.

Fixpoint run (ins : slice Input) (w : World) : option World :=
  match ins with
  | [] => Some w
  | i :: ins' =>
      match step i w with
      | None => None
      | Some w' => run ins' w'
      end
  end.

(** The program from its start (the generator first yields [raw]). *)
Definition boot (raw : Z) (ins : slice Input) : option World :=
  match start raw with
  | None => None
  | Some (g, out) => run ins (mkWorld g [] 0 out)
  end.

(** The comparisons of a player's selection with Simon's symbol that a
    run has printed. *)
Definition comparisons (out : slice Effect) : slice (Z * Z) :=
  flat_map (fun x => match x with
                     | Println (simon_user a b) => [(a, b)]
                     | _ => []
                     end) out.

(* ================================================================= *)
(** ** Vocabulary of the specification *)

(** The phase in which the player reproduces the sequence. *)
Definition AwaitingPlayer (g : Game) : Prop :=
  simonPlay g = false /\ terminating g = false.

Definition isPress (ev : PointerType) : bool :=
  match ev with Press => true | _ => false end.

(** No pad has a pointer press queued. *)
Definition noPress (e : FrameEvent) : bool :=
  forallb (fun i => forallb (fun ev => negb (isPress ev)) (Events e i)) pads.

(** The frame event [e] with its pointer events taken away. *)
Definition noPointer (e : FrameEvent) : FrameEvent :=
  mkFrameEvent (fun _ => []) (audioPlaying e).

(** A game state whose sequence satisfies the invariant. *)
Definition GameInv (g : Game) : Prop := Inv (sequence g).

(* ================================================================= *)
(** ** Scenarios *)

(** A frame with nothing queued, and frames in which pad [p] has a press
    or a release queued; no sound is playing. *)
Definition quiet : FrameEvent := mkFrameEvent (fun _ => []) (fun _ => false).

Definition press (p : Z) : FrameEvent :=
  mkFrameEvent (fun i => if i =? p then [Press] else []) (fun _ => false).

Definition release (p : Z) : FrameEvent :=
  mkFrameEvent (fun i => if i =? p then [Release] else []) (fun _ => false).

(** Round 1 with the sequence [[2]]: Simon plays pad 2, the player clicks
    pad 2 (time 2000), and clicks it once more (time 2300) during the
    second that precedes round 2. *)
Definition round1 : slice Input :=
  [ Deliver 0 (FrameEv quiet);            (* Simon plays 2 *)
    Expire 0;                             (* 500: w.Invalidate *)
    Deliver 500 (FrameEv quiet);          (* end of sequence: user play *)
    Deliver 2000 (FrameEv (press 2));     (* the player's answer *)
    Deliver 2100 (FrameEv (release 2)) ].

Definition secondClick : slice Input :=
  [ Deliver 2300 (FrameEv (press 2));
    Deliver 2400 (FrameEv (release 2));
    Expire 1;                             (* 3000: next round *)
    Deliver 3000 (FrameEv quiet);         (* Simon plays 2 *)
    Expire 3 ].                           (* 3300: next round, again *)

(** A player's phase on the sequence [[2; 0]] after the first symbol was
    matched. *)
Definition scenario2 : Game := mkGame false false (-1) (mkSequence [2; 0] 1 4).

(* ================================================================= *)
(** ** Colours, pads and the window *)

(** [color.NRGBA]: four [uint8] components. *)
Module color.
Record NRGBA : Type := mkNRGBA { R : Z; G : Z; B : Z; A : Z }.
End color.

Definition uint8 (x : Z) : Prop := 0 <= x < 256.

Definition validColor (c : color.NRGBA) : Prop :=
  uint8 (color.R c) /\ uint8 (color.G c) /\ uint8 (color.B c) /\
  uint8 (color.A c).

(** [Darker]: the colour channels divided by [r = 2], alpha kept. *)
Definition Darker (c : color.NRGBA) : color.NRGBA :=
  color.mkNRGBA (color.R c / 2) (color.G c / 2) (color.B c / 2) (color.A c).

(** A [Pad], without the handle of its button widget. *)
Record Pad : Type := mkPad {
  label : string;
  color : color.NRGBA
}.

(** The table [pads]. *)
Definition padsTable : slice Pad :=
  [ mkPad "1" (color.mkNRGBA 0 200 0 255);      (* green *)
    mkPad "2" (color.mkNRGBA 255 0 0 255);      (* red *)
    mkPad "3" (color.mkNRGBA 255 255 0 255);    (* yellow *)
    mkPad "4" (color.mkNRGBA 0 128 255 255) ].  (* blue *)

(** The colour [Pad.Layout] hands to [DrawRect]. *)
Definition fill (pad : Pad) (active : bool) : color.NRGBA :=
  let c := color pad in
  if negb active then Darker c else c.

(** [image.Point], [image.Rectangle], [image.Rect] and [Point.In]. *)
Module image.
Record Point : Type := mkPoint { X : Z; Y : Z }.
Record Rectangle : Type := mkRectangle { Min : Point; Max : Point }.

Definition Rect (x0 y0 x1 y1 : Z) : Rectangle :=
  let '(x0, x1) := if x0 >? x1 then (x1, x0) else (x0, x1) in
  let '(y0, y1) := if y0 >? y1 then (y1, y0) else (y0, y1) in
  mkRectangle (mkPoint x0 y0) (mkPoint x1 y1).

Definition In (p : Point) (r : Rectangle) : bool :=
  (X (Min r) <=? X p) && (X p <? X (Max r)) &&
  (Y (Min r) <=? Y p) && (Y p <? Y (Max r)).
End image.

(** [ww] and [wh]: the [float32] values 800 and 600, whose halves are
    integers; [int(ww/2)] is [ww / 2]. *)
Definition ww : Z := 800.
Definition wh : Z := 600.

(** The area in which pad [i] listens for pointer events: the [switch i]
    of the frame ([pos] keeps its zero value for another [i]). *)
Definition pos (i : Z) : image.Rectangle :=
  if i =? 0 then image.Rect 0 0 (ww / 2) (wh / 2)
  else if i =? 1 then image.Rect (ww / 2) 0 ww (wh / 2)
  else if i =? 2 then image.Rect 0 (wh / 2) (ww / 2) wh
  else if i =? 3 then image.Rect (ww / 2) (wh / 2) ww wh
  else image.mkRectangle (image.mkPoint 0 0) (image.mkPoint 0 0).

(* ================================================================= *)
(** ** Sequences of calls and of frames *)

(** Successive calls on one [Sequence]. *)
Fixpoint calls (ops : slice Op) (s : Sequence) : option Sequence :=
  match ops with
  | [] => Some s
  | op :: ops' =>
      match call op s with
      | None => None
      | Some (_, s') => calls ops' s'
      end
  end.

(** The number of [Reset(true)] among the calls. *)
Definition grows (ops : slice Op) : nat :=
  Datatypes.length
    (filter (fun op => match op with OpReset true _ => true | _ => false end)
            ops).

(** Successive frame events, with everything they issue. *)
Fixpoint frames (es : slice FrameEvent) (g : Game)
  : option (Game * slice Effect) :=
  match es with
  | [] => Some (g, [])
  | e :: es' =>
      match frame e g with
      | None => None
      | Some (g1, out1) =>
          match frames es' g1 with
          | None => None
          | Some (g2, out2) => Some (g2, out1 ++ out2)
          end
      end
  end.

(** The pads drawn active, and the pad samples played. *)
Definition highlights (out : slice Effect) : slice Z :=
  flat_map (fun x => match x with
                     | Layout i true => [i]
                     | _ => []
                     end) out.

Definition sounds (out : slice Effect) : slice Z :=
  flat_map (fun x => match x with
                     | audioPlay (padSample i) => [i]
                     | _ => []
                     end) out.

(** The pad a frame event selects in the player's phase when no
    selection is pending. *)
Definition pick (e : FrameEvent) : Z :=
  fst (fst (grid false false e (-1))).

(** What the closure of pad [i] issues once the selection is [sel]: the
    sound, unless one is playing, and the pad drawn. *)
Definition padOut (e : FrameEvent) (i sel : Z) : slice Effect :=
  (if (sel =? i) && negb (audioPlaying e i)
   then [Println (play (i + 1)); audioPlay (padSample sel)]
   else []) ++ [Layout i (sel =? i)].

(** The invariant of the program's game state. *)
Definition Safe (g : Game) : Prop :=
  Inv (sequence g) /\ maxval (sequence g) = 4.

(** Further states and events for the examples: Simon about to play
    [[2; 0]], the game after a mismatch, the player's phase on the used-up
    sequence [[2]], and a frame with presses queued on pads 1 and 3. *)
Definition playing : Game := mkGame true false (-1) (mkSequence [2; 0] 0 4).

Definition mismatched : Game := mkGame false true (-1) (mkSequence [2; 0] 2 4).

Definition roundDone : Game := mkGame false false (-1) (mkSequence [2] 1 4).

Definition pressTwoPads : FrameEvent :=
  mkFrameEvent (fun i => if (i =? 1) || (i =? 3) then [Press] else [])
               (fun _ => false).

(** Round 1 as above, with the second click at time 2900: the first
    next-round timer (3000) starts round 2 on [[2; 0]], which frames at
    3000, 3100 and 3200 play and hand over; the player selects pad 2
    (right) and then, at 3450, pad 1 (wrong).  The second next-round timer
    is due at 3900, the report of the failure at 3950. *)
Definition lateClick : slice Input :=
  [ Deliver 2900 (FrameEv (press 2));
    Deliver 2950 (FrameEv (release 2));
    Expire 0;                             (* 3000: next round *)
    Deliver 3000 (FrameEv quiet);         (* Simon plays 2 *)
    Deliver 3100 (FrameEv quiet);         (* Simon plays 0 *)
    Deliver 3200 (FrameEv quiet);         (* user play *)
    Deliver 3300 (FrameEv (press 2));     (* right *)
    Deliver 3350 (FrameEv (release 2)) ].

Definition wrongPad : slice Input :=
  [ Deliver 3450 (FrameEv (press 1)) ].   (* wrong: Simon's symbol is 0 *)

Definition untilReport : slice Input :=
  [ Expire 0;                             (* 3500: w.Invalidate *)
    Expire 0;                             (* 3600: w.Invalidate *)
    Expire 3;                             (* 3900: next round, again *)
    Expire 0 ].                           (* 3950: the report *)

(** The numbers printed as "Longest correct sequence:". *)
Definition reports (out : slice Effect) : slice Z :=
  flat_map (fun x => match x with
                     | Println (Longest_correct_sequence n) => [n]
                     | _ => []
                     end) out.

(** A timer for a next round is pending. *)
Definition nextRoundPending (ts : slice (Z * Callback)) : Prop :=
  In CbSimonPlay (map snd ts).

(** Case analysis on the tests of the code under consideration. *)
Ltac case_tests :=
  repeat match goal with
         | |- context [if ?b then _ else _] => destruct b eqn:?; cbn
         end.

(* ================================================================= *)
(** ** Properties of [Sequence] *)

Section SequenceFacts.

Lemma Int31n_range n raw : 0 < n -> 0 <= Int31n n raw < n.
Proof.
  intros Hn. unfold Int31n.
  destruct (Z.land n (n - 1) =? 0).
  - assert (0 <= Z.land raw (n - 1) <= n - 1); [|lia].
    apply Z.ldiff_le; [lia|].
    now rewrite Z.ldiff_land, <- Z.land_assoc, Z.land_lnot_diag, Z.land_0_r.
  - apply Z.mod_pos_bound; lia.
Qed.

Lemma Intn_Some n raw : 0 < n -> exists x, Intn n raw = Some x /\ Symbol n x.
Proof.
  intros Hn. unfold Intn.
  destruct (Z.leb_spec n 0); [lia|].
  destruct (n <=? 2 ^ 31 - 1);
    (eexists; split; [reflexivity|]); now apply Int31n_range.
Qed.

Lemma Intn_inv n raw x : Intn n raw = Some x -> Symbol n x.
Proof.
  unfold Intn. destruct (Z.leb_spec n 0); [discriminate|].
  destruct (n <=? 2 ^ 31 - 1); intros [= <-]; now apply Int31n_range.
Qed.

Lemma index_Some l i :
  0 <= i < len l -> exists x, index l i = Some x /\ In x l.
Proof.
  unfold len, index. intros Hi.
  destruct (Z.ltb_spec i 0); [lia|].
  destruct (nth_error l (Z.to_nat i)) as [x|] eqn:E.
  - exists x; split; [reflexivity|]. eapply nth_error_In; eauto.
  - apply nth_error_None in E. lia.
Qed.

Lemma index_app_middle (l1 l2 : slice Z) x :
  index (l1 ++ x :: l2) (len l1) = Some x.
Proof.
  unfold index, len.
  destruct (Z.ltb_spec (Z.of_nat (Datatypes.length l1)) 0); [lia|].
  rewrite Nat2Z.id. now rewrite nth_error_app2, Nat.sub_diag by lia.
Qed.

Lemma len_app (l1 l2 : slice Z) : len (l1 ++ l2) = len l1 + len l2.
Proof. unfold len. rewrite length_app. lia. Qed.

Lemma len_nonneg (l : slice Z) : 0 <= len l.
Proof. unfold len. lia. Qed.

(** What [Next] does, by cases on the cursor. *)
Lemma Next_end s : lindex s = Len s -> Next s = Some (-1, s).
Proof.
  unfold Next, Len. intros ->. now rewrite Z.eqb_refl.
Qed.

Lemma Next_mid s :
  0 <= lindex s < Len s ->
  exists x, index (list s) (lindex s) = Some x /\ In x (list s) /\
            Next s = Some (x, mkSequence (list s) (lindex s + 1) (maxval s)).
Proof.
  unfold Len. intros H.
  destruct (index_Some (list s) (lindex s) H) as (x & Hx & Hin).
  exists x. repeat split; trivial.
  unfold Next. destruct (Z.eqb_spec (lindex s) (len (list s))); [lia|].
  now rewrite Hx.
Qed.

Lemma Next_total s :
  cursor_ok s -> exists v s', Next s = Some (v, s').
Proof.
  unfold cursor_ok. intros Hc.
  destruct (Z.eq_dec (lindex s) (Len s)) as [E|E].
  - rewrite (Next_end s E). eauto.
  - destruct (Next_mid s ltac:(lia)) as (x & _ & _ & ->). eauto.
Qed.

Lemma Reset_false raw s :
  Reset false raw s = Some (mkSequence (list s) 0 (maxval s)).
Proof. reflexivity. Qed.

Lemma Reset_true raw s :
  0 < maxval s ->
  exists x, Intn (maxval s) raw = Some x /\ Symbol (maxval s) x /\
            Reset true raw s = Some (mkSequence (list s ++ [x]) 0 (maxval s)).
Proof.
  intros Hk. destruct (Intn_Some (maxval s) raw Hk) as (x & Hx & Hs).
  exists x. repeat split; try apply Hs; trivial.
  unfold Reset; cbn. now rewrite Hx.
Qed.

Lemma Reset_inv add raw s s' :
  Reset add raw s = Some s' ->
  lindex s' = 0 /\ maxval s' = maxval s /\
  if add then exists x, Intn (maxval s) raw = Some x /\ list s' = list s ++ [x]
  else list s' = list s.
Proof.
  unfold Reset; cbn. destruct add.
  - destruct (Intn (maxval s) raw) as [x|]; [|discriminate].
    intros [= <-]; cbn. repeat split. now exists x.
  - intros [= <-]; cbn. auto.
Qed.

Lemma Next_inv s v s' :
  Next s = Some (v, s') ->
  list s' = list s /\ maxval s' = maxval s /\
  (lindex s' = lindex s \/ lindex s' = lindex s + 1 /\ lindex s < Len s).
Proof.
  unfold Next, Len.
  destruct (Z.eqb_spec (lindex s) (len (list s))).
  - intros [= <- <-]. auto.
  - unfold index. destruct (Z.ltb_spec (lindex s) 0); [discriminate|].
    destruct (nth_error _ _) eqn:E; [|discriminate].
    intros [= <- <-]; cbn. repeat split. right. split; trivial.
    assert (Z.to_nat (lindex s) < Datatypes.length (list s))%nat
      by (apply nth_error_Some; congruence).
    unfold len. lia.
Qed.

Lemma Reset_Inv add raw s s' : Inv s -> Reset add raw s = Some s' -> Inv s'.
Proof.
  intros [Hc Hf] H. destruct (Reset_inv _ _ _ _ H) as (Hi & Hm & Hl).
  unfold Inv, cursor_ok, Len. rewrite Hi, Hm. split.
  - pose proof (len_nonneg (list s')). lia.
  - destruct add.
    + destruct Hl as (x & Hx & ->). apply Forall_app. split; trivial.
      constructor; [|constructor]. eapply Intn_inv; eauto.
    + now rewrite Hl.
Qed.

Lemma Next_Inv s v s' : Inv s -> Next s = Some (v, s') -> Inv s'.
Proof.
  intros [Hc Hf] H. destruct (Next_inv _ _ _ H) as (Hl & Hm & Hi).
  unfold Inv, cursor_ok, Len in *. rewrite Hl, Hm. split; trivial. lia.
Qed.

Lemma reachable_Inv s : reachable s -> Inv s /\ maxval s = 4.
Proof.
  induction 1 as [|add raw s s' _ [IH Hk] H|s v s' _ [IH Hk] H].
  - repeat split; cbn; try lia. constructor.
  - split; [eapply Reset_Inv; eauto|].
    destruct (Reset_inv _ _ _ _ H) as (_ & -> & _); trivial.
  - split; [eapply Next_Inv; eauto|].
    destruct (Next_inv _ _ _ H) as (_ & -> & _); trivial.
Qed.

Lemma replay_from (l2 l1 : slice Z) (k : Z) :
  replay (Datatypes.length l2) (mkSequence (l1 ++ l2) (len l1) k)
  = Some (l2, mkSequence (l1 ++ l2) (len (l1 ++ l2)) k).
Proof.
  revert l1. induction l2 as [|x l2 IH]; intros l1; cbn [replay Datatypes.length].
  - now rewrite app_nil_r.
  - unfold Next; cbn [list lindex maxval].
    destruct (Z.eqb_spec (len l1) (len (l1 ++ x :: l2))) as [E|_].
    + rewrite len_app in E. unfold len in E; cbn in E. lia.
    + rewrite index_app_middle.
      replace (len l1 + 1) with (len (l1 ++ [x]))
        by (rewrite len_app; reflexivity).
      replace (l1 ++ x :: l2) with ((l1 ++ [x]) ++ l2)
        by (now rewrite <- app_assoc).
      now rewrite IH.
Qed.

Lemma replay_end n s :
  lindex s = Len s -> replay n s = Some (repeat (-1) n, s).
Proof.
  intros H. induction n as [|n IH]; cbn; trivial.
  now rewrite (Next_end s H), IH.
Qed.

Lemma Intn4 raw : Intn 4 raw = Some (raw mod 4).
Proof.
  unfold Intn, Int31n.
  change (4 <=? 0) with false. change (4 <=? 2 ^ 31 - 1) with true.
  change (Z.land 4 (4 - 1) =? 0) with true.
  cbv iota. change (4 - 1) with (Z.ones 2).
  now rewrite Z.land_ones by lia.
Qed.

End SequenceFacts.

(** C2.  Round-trip replay: after [Reset(false)], [Len()] calls of
    [Next()] return exactly the stored symbols, in insertion order, and
    leave the cursor at the end of the unchanged list. *)
Theorem replay_roundtrip (s : Sequence) (raw : Z) :
  exists s0,
    Reset false raw s = Some s0 /\
    list s0 = list s /\
    replay (Z.to_nat (Len s0)) s0
    = Some (list s, mkSequence (list s) (Len s) (maxval s)).
Proof.
  eexists; split; [apply Reset_false|]. split; [reflexivity|].
  unfold Len, len; cbn [list]. rewrite Nat2Z.id.
  apply (replay_from (list s) [] (maxval s)).
Qed.

(** C3.  On a state that satisfies the invariant, [Next()] returns the
    sentinel [-1], which is not a Symbol, exactly when the cursor equals
    the length, that is exactly when [HasNext()] is false; otherwise it
    returns the Symbol stored at the cursor and advances the cursor by
    one, leaving the list alone. *)
Theorem Next_spec (s : Sequence) :
  Inv s ->
  exists v s',
    Next s = Some (v, s') /\
    (v = -1 <-> lindex s = Len s) /\
    (lindex s = Len s <-> HasNext s = false) /\
    ~ Symbol (maxval s) (-1) /\
    (HasNext s = true ->
       index (list s) (lindex s) = Some v /\ Symbol (maxval s) v /\
       s' = mkSequence (list s) (lindex s + 1) (maxval s)).
Proof.
  intros [Hc Hf]. unfold cursor_ok in Hc.
  assert (Hh : lindex s = Len s <-> HasNext s = false).
  { unfold HasNext, Len in *. destruct (Z.ltb_spec (lindex s) (len (list s)));
      split; intros; try lia; discriminate. }
  assert (Hm : ~ Symbol (maxval s) (-1)) by (unfold Symbol; lia).
  destruct (Z.eq_dec (lindex s) (Len s)) as [E|E].
  - exists (-1), s. rewrite (Next_end s E).
    split; [reflexivity|]. split; [tauto|]. split; [exact Hh|].
    split; [exact Hm|]. intros Ht. apply Hh in E. congruence.
  - destruct (Next_mid s ltac:(lia)) as (x & Hx & Hin & HN).
    exists x, (mkSequence (list s) (lindex s + 1) (maxval s)).
    assert (Hs : Symbol (maxval s) x)
      by (rewrite Forall_forall in Hf; auto).
    split; [exact HN|]. split; [|split; [exact Hh|split; [exact Hm|auto]]].
    split; [|tauto]. intros ->. tauto.
Qed.

(** C4.  On the program's sequence (bound 4) [Reset] never fails and sets
    the cursor to 0; with [add] it appends exactly one value, the
    generator's draw reduced into [0,4), and without it the list is
    unchanged.  The reduction is uniform: each of the four Symbols is the
    image of exactly the 2^29 draws [4q+k] among the 2^31 outputs of the
    generator. *)
Theorem Reset_spec (add : bool) (raw : Z) (s : Sequence) :
  maxval s = 4 ->
  (exists s',
     Reset add raw s = Some s' /\ lindex s' = 0 /\ maxval s' = 4 /\
     if add
     then exists x, Intn 4 raw = Some x /\ Symbol 4 x /\ list s' = list s ++ [x]
     else list s' = list s) /\
  (forall k r, Symbol 4 k -> 0 <= r < 2 ^ 31 ->
     Intn 4 r = Some k <-> exists q, 0 <= q < 2 ^ 29 /\ r = 4 * q + k).
Proof.
  intros Hk. split.
  - destruct add.
    + destruct (Reset_true raw s ltac:(lia)) as (x & Hx & Hs & HR).
      rewrite Hk in *. eexists; split; [exact HR|]. cbn. eauto 6.
    + eexists; split; [apply Reset_false|]. cbn. auto.
  - intros k r Hs Hr. rewrite Intn4. unfold Symbol in Hs. split.
    + intros [= E]. exists (r / 4).
      pose proof (Z.div_mod r 4 ltac:(lia)).
      assert (r / 4 < 2 ^ 29) by (apply Z.div_lt_upper_bound; lia).
      assert (0 <= r / 4) by (apply Z.div_pos; lia). lia.
    + intros (q & Hq & ->). f_equal.
      rewrite Z.add_comm, Z.mul_comm, Z_mod_plus_full. apply Z.mod_small; lia.
Qed.

(** C7.  Each of the four operations, whenever it returns, leaves the
    cursor inside [0, length] and does not shorten the list; and on a
    state with a positive bound each of them does return. *)
Theorem cursor_ok_preserved (s : Sequence) :
  cursor_ok s ->
  (forall op r s',
     call op s = Some (r, s') -> cursor_ok s' /\ Len s <= Len s') /\
  (forall op, 0 < maxval s -> exists r s', call op s = Some (r, s')).
Proof.
  intros Hc. unfold cursor_ok in *. split.
  - intros [|add raw| |] r s'; cbn [call].
    + intros [= _ <-]. lia.
    + destruct (Reset add raw s) as [s1|] eqn:H; [|discriminate].
      intros [= _ <-]. destruct (Reset_inv _ _ _ _ H) as (Hi & _ & Hl).
      unfold Len in *. rewrite Hi. pose proof (len_nonneg (list s)).
      destruct add.
      * destruct Hl as (x & _ & E). rewrite E, len_app.
        change (len [x]) with 1. lia.
      * rewrite Hl. lia.
    + destruct (Next s) as [[v s1]|] eqn:H; [|discriminate].
      intros [= _ <-]. destruct (Next_inv _ _ _ H) as (Hl & _ & Hi).
      unfold Len in *. rewrite Hl. lia.
    + intros [= _ <-]. lia.
  - intros [|[|] raw| |] Hk; cbn [call]; eauto.
    + destruct (Reset_true raw s Hk) as (x & _ & _ & ->). eauto.
    + rewrite Reset_false. eauto.
    + destruct (Z.eq_dec (lindex s) (Len s)) as [E|E].
      * rewrite (Next_end s E). eauto.
      * destruct (Next_mid s ltac:(lia)) as (x & _ & _ & ->). eauto.
Qed.

(** C10.  On every state the program's sequence can reach, once the
    cursor equals the length [Next()] returns [-1] and changes neither
    the cursor nor the list, however often it is called; every stored
    value lies in [0,4), so [-1] is none of them. *)
Theorem Next_exhausted (s : Sequence) :
  reachable s ->
  lindex s = Len s ->
  Next s = Some (-1, s) /\
  (forall n, replay n s = Some (repeat (-1) n, s)) /\
  Forall (Symbol 4) (list s) /\
  ~ In (-1) (list s).
Proof.
  intros Hr He. destruct (reachable_Inv s Hr) as [[_ Hf] Hk].
  rewrite Hk in Hf. repeat split.
  - now apply Next_end.
  - intros n. now apply replay_end.
  - exact Hf.
  - intros Hin. rewrite Forall_forall in Hf. apply Hf in Hin.
    unfold Symbol in Hin. lia.
Qed.

(* ================================================================= *)
(** ** Properties of the event loop *)

Section LoopFacts.

Lemma schedule_app now out1 out2 :
  schedule now (out1 ++ out2) = schedule now out1 ++ schedule now out2.
Proof.
  induction out1 as [|[] out1 IH]; cbn; congruence.
Qed.

Lemma scan_quiet i evs :
  forallb (fun ev => negb (isPress ev)) evs = true -> scan i evs (-1) = -1.
Proof.
  unfold scan. induction evs as [|ev evs IH]; cbn; trivial.
  destruct ev; cbn; try discriminate; exact IH.
Qed.

(** With a selection already made, a pad takes it over and does not read
    its pointer events. *)
Lemma layoutPad_selected d e i u sel out :
  0 <= sel ->
  exists out',
    layoutPad false d e i (u, sel, out) = (sel, sel, out') /\
    layoutPad false d (noPointer e) i (u, sel, out) = (sel, sel, out').
Proof.
  intros H. unfold layoutPad; cbn [negb].
  destruct (Z.geb_spec sel 0); [|lia]. cbn [audioPlaying noPointer]. eauto.
Qed.

Lemma pads_selected ps d e u sel out :
  0 <= sel -> ps <> [] ->
  exists out',
    fold_left (fun st i => layoutPad false d e i st) ps (u, sel, out)
    = (sel, sel, out') /\
    fold_left (fun st i => layoutPad false d (noPointer e) i st) ps (u, sel, out)
    = (sel, sel, out').
Proof.
  intros H. revert u out. induction ps as [|i ps IH]; intros u out Hne.
  - congruence.
  - cbn [fold_left].
    destruct (layoutPad_selected d e i u sel out H) as (out1 & -> & ->).
    destruct ps as [|j ps]; [cbn; eauto|]. apply IH. discriminate.
Qed.

Lemma grid_selected d e sel :
  0 <= sel ->
  exists out,
    grid false d e sel = (sel, sel, out) /\
    grid false d (noPointer e) sel = (sel, sel, out).
Proof.
  intros H. apply pads_selected; trivial. discriminate.
Qed.

(** Without a selection and without a press, a pad selects nothing. *)
Lemma layoutPad_quiet d e i sel out :
  sel < 0 ->
  forallb (fun ev => negb (isPress ev)) (Events e i) = true ->
  exists out',
    layoutPad false d e i (-1, sel, out) = (-1, -1, out') /\
    schedule 0 out' = schedule 0 out.
Proof.
  intros H Hq. unfold layoutPad; cbn [negb].
  destruct (Z.geb_spec sel 0); [lia|].
  assert (E : scan i (gtxEvents d e i) (-1) = -1).
  { unfold gtxEvents. destruct d; [reflexivity|now apply scan_quiet]. }
  rewrite E. eexists; split; [reflexivity|].
  destruct (_ && _); rewrite !schedule_app; cbn; now rewrite ?app_nil_r.
Qed.

Lemma pads_quiet ps d e sel out :
  sel < 0 ->
  forallb (fun i => forallb (fun ev => negb (isPress ev)) (Events e i)) ps
  = true ->
  exists sel' out',
    fold_left (fun st i => layoutPad false d e i st) ps (-1, sel, out)
    = (-1, sel', out') /\ sel' < 0 /\ (ps <> [] -> sel' = -1) /\
    schedule 0 out' = schedule 0 out.
Proof.
  revert sel out. induction ps as [|i ps IH]; intros sel out H Hq.
  - exists sel, out. cbn. repeat split; trivial. congruence.
  - cbn in Hq. apply andb_prop in Hq as [Hi Hq]. cbn [fold_left].
    destruct (layoutPad_quiet d e i sel out H Hi) as (out1 & -> & E1).
    destruct ps as [|j ps].
    + exists (-1), out1. cbn. repeat split; trivial; lia.
    + destruct (IH (-1) out1 ltac:(lia) Hq)
        as (sel' & out' & -> & Hs & Hn & E2).
      exists sel', out'. repeat split; trivial; [|congruence].
      intros _. apply Hn. discriminate.
Qed.

Lemma grid_quiet d e sel :
  sel < 0 -> noPress e = true ->
  exists out, grid false d e sel = (-1, -1, out) /\ schedule 0 out = [].
Proof.
  intros H Hq.
  destruct (pads_quiet pads d e sel [] H Hq) as (sel' & out & E & _ & Hn & Hs).
  exists out. unfold grid. rewrite E, Hn by discriminate. auto.
Qed.

(** During the player's phase Simon's block is skipped. *)
Lemma frame_player e g :
  simonPlay g = false ->
  frame e g =
  let '(user, sel, out2) := grid false (terminating g) e (selected g) in
  match judge user (mkGame false (terminating g) sel (sequence g)) with
  | None => None
  | Some (g3, out3) =>
      Some (mkGame (simonPlay g3) (terminating g3) (-1) (sequence g3),
            out2 ++ out3 ++ [Frame])
  end.
Proof.
  intros H. unfold frame, simonTurn. destruct g as [sp t sel sq].
  cbn in H; subst sp. reflexivity.
Qed.

Lemma frameUser_player e g :
  simonPlay g = false ->
  frameUser e g = fst (fst (grid false (terminating g) e (selected g))).
Proof.
  intros H. unfold frameUser. now rewrite H.
Qed.

End LoopFacts.

Section FrameFacts.

Lemma frame_clears e g g' out : frame e g = Some (g', out) -> selected g' = -1.
Proof.
  unfold frame. destruct (simonTurn g) as [[g1 out1]|]; [|discriminate].
  destruct (grid _ _ _ _) as [[user sel] out2].
  destruct (judge _ _) as [[g3 out3]|]; [|discriminate].
  now intros [= <- _].
Qed.

Lemma judge_simonPlay user g g' out :
  judge user g = Some (g', out) -> simonPlay g' = simonPlay g.
Proof.
  unfold judge. destruct (judging user g); [|now intros [= <- _]].
  destruct (Next (sequence g)) as [[simon sq]|]; [|discriminate].
  cbn. case_tests; now intros [= <- _].
Qed.

Lemma frame_player_stays e g g' out :
  simonPlay g = false -> frame e g = Some (g', out) -> simonPlay g' = false.
Proof.
  intros H. rewrite frame_player by trivial.
  destruct (grid _ _ _ _) as [[user sel] out2].
  destruct (judge _ _) as [[g3 out3]|] eqn:E; [|discriminate].
  intros [= <- _]. cbn. now rewrite (judge_simonPlay _ _ _ _ E).
Qed.

(** A frame of the player's phase that brings neither a keyboard
    selection nor a press. *)
Lemma quiet_frame e g :
  simonPlay g = false -> selected g < 0 -> noPress e = true ->
  frameUser e g = -1 /\
  exists out,
    frame e g = Some (mkGame false (terminating g) (-1) (sequence g), out) /\
    schedule 0 out = [].
Proof.
  intros Hp Hs Hq.
  destruct (grid_quiet (terminating g) e (selected g) Hs Hq) as (out & E & Ho).
  split.
  - rewrite frameUser_player by trivial. now rewrite E.
  - exists (out ++ [] ++ [Frame]). rewrite frame_player by trivial. rewrite E.
    cbn. split; [reflexivity|]. rewrite schedule_app, Ho. reflexivity.
Qed.

(** A frame of the player's phase that finds a selection made. *)
Lemma selected_frame e g :
  simonPlay g = false -> 0 <= selected g ->
  frameUser e g = selected g /\
  frame e g = frame (noPointer e) g /\
  exists out2,
    frame e g =
    match judge (selected g) g with
    | None => None
    | Some (g3, out3) =>
        Some (mkGame (simonPlay g3) (terminating g3) (-1) (sequence g3),
              out2 ++ out3 ++ [Frame])
    end.
Proof.
  intros Hp Hs.
  destruct (grid_selected (terminating g) e (selected g) Hs) as (out & E & E').
  split; [|split].
  - rewrite frameUser_player by trivial. now rewrite E.
  - rewrite !frame_player by trivial. cbn [noPointer]. now rewrite E, E'.
  - exists out. rewrite frame_player by trivial. rewrite E.
    destruct g as [sp t sel sq]; cbn in *; subst sp. reflexivity.
Qed.

Lemma keyIndex_digits name :
  In name ["1"; "2"; "3"; "4"]%string ->
  0 <= keyIndex name < 4 /\
  forall g, simonPlay g = false ->
    keyEvent KeyPress name g
    = (mkGame false (terminating g) (keyIndex name) (sequence g), [Invalidate]).
Proof.
  intros H. cbn in H.
  destruct H as [<-|[<-|[<-|[<-|[]]]]]; (split; [vm_compute; easy|]);
    intros [sp t sel sq] Hp; cbn in Hp; subst sp; reflexivity.
Qed.

(** Under the invariant neither block of a frame panics. *)
Lemma simonTurn_total g :
  GameInv g -> exists g' out, simonTurn g = Some (g', out) /\ GameInv g'.
Proof.
  unfold GameInv, simonTurn. intros HI.
  destruct (simonPlay g); [|eauto].
  destruct (Next_total (sequence g) (proj1 HI)) as (v & s' & HN).
  rewrite HN. pose proof (Next_Inv _ _ _ HI HN) as HI'.
  destruct (v >=? 0); [eauto|].
  rewrite Reset_false. do 2 eexists. split; [reflexivity|].
  cbn. eapply Reset_Inv; [exact HI'|apply (Reset_false 0)].
Qed.

Lemma judge_total user g :
  GameInv g -> exists g' out, judge user g = Some (g', out) /\ GameInv g'.
Proof.
  unfold GameInv, judge. intros HI.
  destruct (judging user g); [|eauto].
  destruct (Next_total (sequence g) (proj1 HI)) as (v & s' & HN).
  rewrite HN. pose proof (Next_Inv _ _ _ HI HN) as HI'. cbn.
  case_tests; eauto.
Qed.

Lemma frame_total e g :
  GameInv g -> exists g' out, frame e g = Some (g', out) /\ GameInv g'.
Proof.
  intros HI. unfold frame.
  destruct (simonTurn_total g HI) as (g1 & out1 & -> & H1).
  destruct (grid _ _ _ _) as [[user sel] out2].
  destruct (judge_total user
              (mkGame (simonPlay g1) (terminating g1) sel (sequence g1)) H1)
    as (g3 & out3 & -> & H3).
  eauto.
Qed.

Lemma layoutPad_schedule now sp d e i st :
  schedule now (snd (layoutPad sp d e i st)) = schedule now (snd st).
Proof.
  destruct st as [[user sel] out]. unfold layoutPad.
  destruct (if negb sp then _ else _) as [user' sel'].
  destruct (_ && _); cbn [snd]; rewrite !schedule_app; cbn;
    now rewrite ?app_nil_r.
Qed.

Lemma pads_schedule now sp d e ps st :
  schedule now (snd (fold_left (fun st i => layoutPad sp d e i st) ps st))
  = schedule now (snd st).
Proof.
  revert st. induction ps as [|i ps IH]; intros st.
  - reflexivity.
  - cbn [fold_left]. now rewrite IH, layoutPad_schedule.
Qed.

Lemma grid_schedule now sp d e sel : schedule now (snd (grid sp d e sel)) = [].
Proof.
  unfold grid. now rewrite pads_schedule.
Qed.

End FrameFacts.

(* ================================================================= *)
(** ** Growth of the sequence *)

Section Growth.

Lemma simonTurn_list g g' out :
  simonTurn g = Some (g', out) -> list (sequence g') = list (sequence g).
Proof.
  unfold simonTurn. destruct (simonPlay g); [|now intros [= <- _]].
  destruct (Next (sequence g)) as [[simon sq]|] eqn:HN; [|discriminate].
  destruct (Next_inv _ _ _ HN) as (Hl & _).
  destruct (simon >=? 0); [now intros [= <- _]|].
  rewrite Reset_false. now intros [= <- _].
Qed.

Lemma judge_list user g g' out :
  judge user g = Some (g', out) -> list (sequence g') = list (sequence g).
Proof.
  unfold judge. destruct (judging user g); [|now intros [= <- _]].
  destruct (Next (sequence g)) as [[simon sq]|] eqn:HN; [|discriminate].
  destruct (Next_inv _ _ _ HN) as (Hl & _).
  cbn. case_tests; now intros [= <- _].
Qed.

(** Frames and key events never change the stored list. *)
Lemma frame_list e g g' out :
  frame e g = Some (g', out) -> list (sequence g') = list (sequence g).
Proof.
  unfold frame. destruct (simonTurn g) as [[g1 out1]|] eqn:E1; [|discriminate].
  destruct (grid _ _ _ _) as [[user sel] out2].
  destruct (judge _ _) as [[g3 out3]|] eqn:E3; [|discriminate].
  intros [= <- _]. cbn. rewrite (judge_list _ _ _ _ E3). cbn.
  exact (simonTurn_list _ _ _ E1).
Qed.

Lemma handle_list ev g g' out :
  handle ev g = Continue g' out -> list (sequence g') = list (sequence g).
Proof.
  destruct ev as [err|e|state name|]; cbn.
  - discriminate.
  - destruct (frame e g) as [[g1 out1]|] eqn:E; [|discriminate].
    intros [= <- _]. exact (frame_list _ _ _ _ E).
  - destruct (keyEvent state name g) as [g1 out1] eqn:E. intros [= <- _].
    unfold keyEvent in E. destruct state.
    + revert E. case_tests; now intros [= <- _].
    + now injection E as <- _.
  - now intros [= <- _].
Qed.

(** Only the next-round callback lengthens the list, by one symbol. *)
Lemma fire_list f raw g g' out :
  fire f raw g = Some (g', out) ->
  match f with
  | CbSimonPlay => exists x, list (sequence g') = list (sequence g) ++ [x]
  | _ => list (sequence g') = list (sequence g)
  end.
Proof.
  destruct f; cbn [fire]; try now intros [= <- _].
  destruct (Reset true raw (sequence g)) as [sq|] eqn:E; [|discriminate].
  intros [= <- _]. cbn.
  destruct (Reset_inv _ _ _ _ E) as (_ & _ & x & _ & Hx). eauto.
Qed.

(** No step of the program appends more than one symbol, and an event of
    the window appends none. *)
Lemma step_grows_at_most_one i w w' :
  step i w = Some w' ->
  Len (sequence (game w')) = Len (sequence (game w)) \/
  Len (sequence (game w')) = Len (sequence (game w)) + 1 /\
  exists raw, i = Expire raw.
Proof.
  destruct i as [at_ ev|raw]; cbn.
  - destruct (_ && _); [|discriminate].
    destruct (handle ev (game w)) as [g out| |] eqn:E; try discriminate.
    intros [= <-]. cbn. left. unfold Len. now rewrite (handle_list _ _ _ _ E).
  - destruct (earliest (timers w)) as [[[t f] rest]|]; [|discriminate].
    destruct (fire f raw (game w)) as [[g out]|] eqn:E; [|discriminate].
    intros [= <-]. cbn. apply fire_list in E. unfold Len.
    destruct f; try (left; now rewrite E).
    destruct E as (x & ->). right. rewrite len_app. split; [reflexivity|eauto].
Qed.

End Growth.

(** Scenario 1 of the specification: a fresh game with the sequence
    [[2]]; Simon plays pad 2, the player selects pad 2, and the next
    round is scheduled. *)
Example scenario1_round_won :
  option_map (fun w => (sequence (game w), timers w, comparisons (output w)))
             (boot 2 round1)
  = Some (mkSequence [2] 1 4, [(3000, CbSimonPlay)], [(3, 3)]).
Proof. vm_compute. reflexivity. Qed.

(** Scenario 2 of the specification: on [[2; 0]] the player selects 2 and
    then 1; the game terminates and the callback reports 1. *)
Example scenario2_reports_1 :
  frame (press 2) (mkGame false false (-1) (mkSequence [2; 0] 0 4))
  = Some (scenario2,
          [Layout 0 false; Layout 1 false; Println (play 3);
           audioPlay (padSample 2); Layout 2 true; Layout 3 false;
           Println (simon_user 3 3); Frame]) /\
  option_map (fun r => terminating (fst r)) (frame (press 1) scenario2)
  = Some true /\
  option_map snd (fire CbLongest 0 scenario2)
  = Some [Println (Longest_correct_sequence 1); audioPlay audioBuzz;
          AfterFunc resetTime CbClose].
Proof. repeat split. Qed.

(** C1 (the code departs from the claim).  Round 1 is played on the
    sequence [[2]] and won with a single comparison; one next round is
    then pending.  A second click during the wait is not compared with
    anything, yet it starts a second timer for the next round: when both
    have expired the sequence has three symbols after one round won. *)
Theorem second_click_grows_twice :
  (exists w,
     boot 2 round1 = Some w /\
     comparisons (output w) = [(3, 3)] /\
     sequence (game w) = mkSequence [2] 1 4 /\
     timers w = [(3000, CbSimonPlay)]) /\
  (exists w,
     boot 2 (round1 ++ secondClick) = Some w /\
     comparisons (output w) = [(3, 3)] /\
     simonPlay (game w) = true /\
     sequence (game w) = mkSequence [2; 1; 3] 0 4 /\
     Len (sequence (game w)) = 3).
Proof.
  split; eexists; (split; [vm_compute; reflexivity|]); cbn; auto.
Qed.

(** The frame of a mismatch.  In the player's phase, when the selection
    of the frame differs from the symbol [Next()] returns, the frame sets
    [terminating], does not change the length of the sequence and starts
    one timer, for the callback which reports [Len() - 1]; run on the
    state the frame leaves, it reports the length at the failure less
    one. *)
Theorem mismatch_terminates
    (g : Game) (e : FrameEvent) (simon : Z) (sq : Sequence) :
  AwaitingPlayer g ->
  0 <= frameUser e g ->
  Next (sequence g) = Some (simon, sq) ->
  0 <= simon ->
  simon <> frameUser e g ->
  exists g' out,
    frame e g = Some (g', out) /\
    simonPlay g' = false /\ terminating g' = true /\
    sequence g' = sq /\ Len sq = Len (sequence g) /\
    schedule 0 out = [(playInterval, CbLongest)] /\
    forall raw,
      fire CbLongest raw g'
      = Some (g', [Println (Longest_correct_sequence (Len (sequence g) - 1));
                   audioPlay audioBuzz;
                   AfterFunc resetTime CbClose]).
Proof.
  intros [Hp Ht] Hu HN Hs Hne.
  rewrite frameUser_player in Hu, Hne by trivial.
  rewrite frame_player by trivial.
  pose proof (grid_schedule 0 false (terminating g) e (selected g)) as Hg.
  destruct (grid _ _ _ _) as [[user sel] out2]. cbn [fst snd] in *.
  destruct (Next_inv _ _ _ HN) as (Hl & _ & _).
  assert (HL : Len sq = Len (sequence g)) by (unfold Len; now rewrite Hl).
  unfold judge, judging. cbn [simonPlay sequence negb andb].
  destruct (Z.geb_spec user 0); [|lia]. rewrite HN.
  destruct (Z.geb_spec simon 0); [|lia].
  destruct (Z.eqb_spec simon user); [lia|]. cbn.
  do 2 eexists. split; [reflexivity|]. cbn.
  repeat split; trivial.
  - rewrite !schedule_app, Hg. reflexivity.
  - intros _. unfold fire. cbn. now rewrite HL.
Qed.

(** C6.  In the player's phase a frame that finds no keyboard selection
    and no press does not enter the judging block: the sequence and its
    cursor stay as they are and no timer is started.  The judging block is
    entered only if a selection was made or a press is queued.  Every
    frame ends with [selected = -1], so the frame after it, if it brings
    no press, judges nothing. *)
Theorem no_selection_no_judging (g : Game) (e : FrameEvent) :
  AwaitingPlayer g ->
  (selected g < 0 -> noPress e = true ->
     judging (frameUser e g) g = false /\
     exists out,
       frame e g = Some (mkGame false false (-1) (sequence g), out) /\
       schedule 0 out = []) /\
  (judging (frameUser e g) g = true -> 0 <= selected g \/ noPress e = false) /\
  (forall g' out,
     frame e g = Some (g', out) ->
     selected g' = -1 /\
     forall e', noPress e' = true ->
       judging (frameUser e' g') g' = false /\
       exists out', frame e' g' = Some (g', out') /\ schedule 0 out' = []).
Proof.
  intros [Hp Ht].
  assert (Q : selected g < 0 -> noPress e = true ->
              judging (frameUser e g) g = false /\
              exists out,
                frame e g = Some (mkGame false false (-1) (sequence g), out) /\
                schedule 0 out = []).
  { intros Hs Hq. destruct (quiet_frame e g Hp Hs Hq) as (Hu & out & Hf & Ho).
    split; [unfold judging; now rewrite Hu, andb_false_r|].
    exists out. now rewrite Hf, Ht. }
  split; [exact Q|split].
  - intros Hj. destruct (Z.le_gt_cases 0 (selected g)); [now left|right].
    destruct (noPress e) eqn:Hq; trivial.
    destruct Q as [Hj' _]; [lia|reflexivity|congruence].
  - intros g' out Hf.
    pose proof (frame_clears _ _ _ _ Hf) as Hc.
    pose proof (frame_player_stays _ _ _ _ Hp Hf) as Hp'.
    split; trivial. intros e' Hq.
    destruct (quiet_frame e' g' Hp' ltac:(lia) Hq) as (Hu & out' & Hf' & Ho).
    split; [unfold judging; now rewrite Hu, andb_false_r|].
    exists out'. split; trivial. rewrite Hf'. do 2 f_equal.
    destruct g'; cbn in *; congruence.
Qed.

(** C8.  In the player's phase, after the press of one of the keys "1" to
    "4" the next frame judges the key's pad whatever pointer events are
    queued: no pad reads its pointer events, and the frame is the one
    that the same frame event without pointer events gives. *)
Theorem keyboard_precedence (g : Game) (name : string) (e : FrameEvent) :
  AwaitingPlayer g ->
  In name ["1"; "2"; "3"; "4"]%string ->
  let g1 := fst (keyEvent KeyPress name g) in
  AwaitingPlayer g1 /\
  selected g1 = keyIndex name /\ 0 <= keyIndex name < 4 /\
  frameUser e g1 = keyIndex name /\
  frame e g1 = frame (noPointer e) g1 /\
  exists out2,
    frame e g1 =
    match judge (keyIndex name) g1 with
    | None => None
    | Some (g3, out3) =>
        Some (mkGame (simonPlay g3) (terminating g3) (-1) (sequence g3),
              out2 ++ out3 ++ [Frame])
    end.
Proof.
  intros [Hp Ht] Hn g1. destruct (keyIndex_digits name Hn) as [Hk Hg].
  subst g1. rewrite (Hg g Hp). cbn [fst].
  set (g1 := mkGame false (terminating g) (keyIndex name) (sequence g)).
  destruct (selected_frame e g1 eq_refl ltac:(cbn; lia)) as (Hu & Hf & Hj).
  repeat split; trivial; lia.
Qed.



(* ================================================================= *)
(** ** The theorems at concrete states *)

Lemma Inv_scenario2 : Inv (sequence scenario2).
Proof.
  split.
  - unfold cursor_ok. cbn. lia.
  - cbn. repeat constructor; cbn; lia.
Defined.

Lemma Next_spec_witness :
  Inv (sequence scenario2) /\
  exists v s',
    Next (sequence scenario2) = Some (v, s') /\
    (v = -1 <-> lindex (sequence scenario2) = Len (sequence scenario2)) /\
    (lindex (sequence scenario2) = Len (sequence scenario2)
     <-> HasNext (sequence scenario2) = false) /\
    ~ Symbol (maxval (sequence scenario2)) (-1) /\
    (HasNext (sequence scenario2) = true ->
       index (list (sequence scenario2)) (lindex (sequence scenario2)) = Some v /\
       Symbol (maxval (sequence scenario2)) v /\
       s' = mkSequence (list (sequence scenario2))
                       (lindex (sequence scenario2) + 1)
                       (maxval (sequence scenario2))).
Proof.
  split; [exact Inv_scenario2|].
  exact (Next_spec (sequence scenario2) Inv_scenario2).
Defined.

Lemma Reset_spec_witness :
  maxval sequence0 = 4 /\
  exists s',
    Reset true 6 sequence0 = Some s' /\ lindex s' = 0 /\ maxval s' = 4 /\
    exists x, Intn 4 6 = Some x /\ Symbol 4 x /\ list s' = list sequence0 ++ [x].
Proof.
  split; [reflexivity|].
  exact (proj1 (Reset_spec true 6 sequence0 eq_refl)).
Defined.

Lemma mismatch_terminates_witness :
  AwaitingPlayer scenario2 /\
  frameUser (press 1) scenario2 = 1 /\
  Next (sequence scenario2) = Some (0, mkSequence [2; 0] 2 4) /\
  exists g' out,
    frame (press 1) scenario2 = Some (g', out) /\
    simonPlay g' = false /\ terminating g' = true /\
    sequence g' = mkSequence [2; 0] 2 4 /\
    Len (mkSequence [2; 0] 2 4) = Len (sequence scenario2) /\
    schedule 0 out = [(playInterval, CbLongest)] /\
    forall raw,
      fire CbLongest raw g'
      = Some (g', [Println (Longest_correct_sequence
                              (Len (sequence scenario2) - 1));
                   audioPlay audioBuzz;
                   AfterFunc resetTime CbClose]).
Proof.
  split; [split; reflexivity|]. split; [reflexivity|]. split; [reflexivity|].
  apply (mismatch_terminates scenario2 (press 1) 0 (mkSequence [2; 0] 2 4)).
  - split; reflexivity.
  - vm_compute. discriminate.
  - reflexivity.
  - lia.
  - vm_compute. discriminate.
Defined.

Lemma no_selection_no_judging_witness :
  AwaitingPlayer scenario2 /\
  judging (frameUser quiet scenario2) scenario2 = false /\
  exists out,
    frame quiet scenario2
    = Some (mkGame false false (-1) (sequence scenario2), out) /\
    schedule 0 out = [].
Proof.
  assert (H : AwaitingPlayer scenario2) by (split; reflexivity).
  split; [exact H|].
  apply (proj1 (no_selection_no_judging scenario2 quiet H)).
  - cbn. lia.
  - reflexivity.
Defined.

Lemma cursor_ok_preserved_witness :
  cursor_ok (sequence scenario2) /\
  (forall op r s',
     call op (sequence scenario2) = Some (r, s') ->
     cursor_ok s' /\ Len (sequence scenario2) <= Len s') /\
  (forall op, 0 < maxval (sequence scenario2) ->
     exists r s', call op (sequence scenario2) = Some (r, s')).
Proof.
  split; [exact (proj1 Inv_scenario2)|].
  exact (cursor_ok_preserved (sequence scenario2) (proj1 Inv_scenario2)).
Defined.

Lemma keyboard_precedence_witness :
  AwaitingPlayer scenario2 /\
  frameUser (press 1) (fst (keyEvent KeyPress "3" scenario2)) = 2 /\
  frame (press 1) (fst (keyEvent KeyPress "3" scenario2))
  = frame (noPointer (press 1)) (fst (keyEvent KeyPress "3" scenario2)).
Proof.
  assert (H : AwaitingPlayer scenario2) by (split; reflexivity).
  split; [exact H|].
  destruct (keyboard_precedence scenario2 "3" (press 1) H
              (or_intror (or_intror (or_introl eq_refl))))
    as (_ & _ & _ & Hu & Hf & _).
  split; [exact Hu|exact Hf].
Defined.


Lemma reachable_played : reachable (mkSequence [2] 1 4).
Proof.
  apply (reach_Next (mkSequence [2] 0 4) 2); [|reflexivity].
  apply (reach_Reset true 2 sequence0); [apply reach_init|reflexivity].
Defined.

Lemma Next_exhausted_witness :
  reachable (mkSequence [2] 1 4) /\
  lindex (mkSequence [2] 1 4) = Len (mkSequence [2] 1 4) /\
  Next (mkSequence [2] 1 4) = Some (-1, mkSequence [2] 1 4) /\
  (forall n, replay n (mkSequence [2] 1 4)
             = Some (repeat (-1) n, mkSequence [2] 1 4)) /\
  Forall (Symbol 4) [2] /\
  ~ In (-1) [2].
Proof.
  split; [exact reachable_played|]. split; [reflexivity|].
  exact (Next_exhausted (mkSequence [2] 1 4) reachable_played eq_refl).
Defined.

(* ================================================================= *)
(** ** Further properties of [Sequence] *)

Section ReplayFacts.

Lemma replay_add n m s :
  replay (n + m) s =
  match replay n s with
  | None => None
  | Some (vs, s') =>
      match replay m s' with
      | None => None
      | Some (ws, s'') => Some (vs ++ ws, s'')
      end
  end.
Proof.
  revert s. induction n as [|n IH]; intros s; cbn [replay Nat.add].
  - destruct (replay m s) as [[ws s'']|]; reflexivity.
  - destruct (Next s) as [[v s1]|]; [|reflexivity]. rewrite IH.
    destruct (replay n s1) as [[vs s2]|]; [|reflexivity].
    destruct (replay m s2) as [[ws s3]|]; reflexivity.
Qed.

Lemma replay_firstn n (l2 l1 : slice Z) k :
  (n <= Datatypes.length l2)%nat ->
  replay n (mkSequence (l1 ++ l2) (len l1) k)
  = Some (firstn n l2, mkSequence (l1 ++ l2) (len l1 + Z.of_nat n) k).
Proof.
  revert l1 l2. induction n as [|n IH]; intros l1 l2 Hn.
  - cbn. now rewrite Z.add_0_r.
  - destruct l2 as [|x l2]; [cbn in Hn; lia|]. cbn [replay firstn].
    unfold Next; cbn [list lindex maxval].
    destruct (Z.eqb_spec (len l1) (len (l1 ++ x :: l2))) as [E|_].
    + rewrite len_app in E. unfold len in E; cbn in E. lia.
    + rewrite index_app_middle.
      replace (len l1 + 1) with (len (l1 ++ [x]))
        by (rewrite len_app; reflexivity).
      replace (l1 ++ x :: l2) with ((l1 ++ [x]) ++ l2)
        by (now rewrite <- app_assoc).
      rewrite IH by (cbn in Hn; lia).
      do 3 f_equal. rewrite len_app. change (len [x]) with 1. lia.
Qed.

End ReplayFacts.

(** X1.  [Next] panics exactly when the cursor lies outside
    [0, len(list)]. *)
Theorem Next_panics_iff (s : Sequence) :
  Next s = None <-> lindex s < 0 \/ Len s < lindex s.
Proof.
  unfold Next, Len, index, len.
  destruct (Z.eqb_spec (lindex s) (Z.of_nat (Datatypes.length (list s))))
    as [E|E].
  - split; [discriminate|lia].
  - destruct (Z.ltb_spec (lindex s) 0) as [H|H].
    + split; auto.
    + destruct (nth_error (list s) (Z.to_nat (lindex s))) as [x|] eqn:Hx.
      * split; [discriminate|]. intros [H'|H']; [lia|].
        assert (Z.to_nat (lindex s) < Datatypes.length (list s))%nat
          by (apply nth_error_Some; congruence).
        lia.
      * split; trivial. intros _. right. apply nth_error_None in Hx. lia.
Qed.

(** X2.  [Reset] panics exactly when it is asked to grow a sequence whose
    bound is not positive; [Reset(false)] never does. *)
Theorem Reset_panics_iff (add : bool) (raw : Z) (s : Sequence) :
  Reset add raw s = None <-> add = true /\ maxval s <= 0.
Proof.
  unfold Reset, Intn; cbn [maxval list lindex]. destruct add.
  - destruct (Z.leb_spec (maxval s) 0) as [H|H].
    + split; auto.
    + destruct (maxval s <=? 2 ^ 31 - 1);
        (split; [discriminate|intros [_ H']; lia]).
  - split; [discriminate|intros [H' _]; discriminate].
Qed.

(** X3.  After [Reset(false)], [n] calls of [Next] return the first [n]
    stored symbols, then [-1] for every call past the end; the cursor
    stops at the length. *)
Theorem replay_any (s : Sequence) (raw : Z) (n : nat) :
  exists s0,
    Reset false raw s = Some s0 /\
    replay n s0
    = Some (firstn n (list s) ++ repeat (-1) (n - Datatypes.length (list s)),
            mkSequence (list s)
                       (Z.of_nat (Nat.min n (Datatypes.length (list s))))
                       (maxval s)).
Proof.
  eexists; split; [apply Reset_false|].
  set (l := list s). set (k := maxval s).
  change (mkSequence l 0 k) with (mkSequence ([] ++ l) (len []) k).
  destruct (Nat.le_gt_cases n (Datatypes.length l)) as [H|H].
  - rewrite replay_firstn by trivial.
    replace (n - Datatypes.length l)%nat with 0%nat by lia.
    cbn [repeat]. rewrite app_nil_r, Nat.min_l by trivial. reflexivity.
  - replace n with (Datatypes.length l + (n - Datatypes.length l))%nat at 1
      by lia.
    rewrite replay_add, replay_firstn by lia.
    rewrite replay_end by (unfold Len, len; cbn; lia).
    rewrite firstn_all, firstn_all2 by lia.
    rewrite Nat.min_r by lia. reflexivity.
Qed.

(** X4.  A series of calls only ever appends to the stored list: what was
    stored stays, in place, and the list grows by one Symbol for each
    [Reset(true)] among the calls; the bound never changes. *)
Theorem calls_append_only (ops : slice Op) (s s' : Sequence) :
  calls ops s = Some s' ->
  exists suffix,
    list s' = list s ++ suffix /\
    Datatypes.length suffix = grows ops /\
    Forall (Symbol (maxval s)) suffix /\
    maxval s' = maxval s.
Proof.
  revert s. induction ops as [|op ops IH]; intros s; cbn [calls].
  - intros [= <-]. exists []. rewrite app_nil_r. repeat split; try constructor.
  - destruct (call op s) as [[r s1]|] eqn:E; [|discriminate]. intros H.
    destruct (IH s1 H) as (suf & Hl & Hn & Hf & Hk).
    assert (H1 : exists pre,
               list s1 = list s ++ pre /\ maxval s1 = maxval s /\
               Forall (Symbol (maxval s)) pre /\
               Datatypes.length pre = grows [op]).
    { destruct op as [|add raw| |]; cbn [call] in E.
      - injection E as _ <-. exists []. rewrite app_nil_r.
        repeat split; try constructor.
      - destruct (Reset add raw s) as [s2|] eqn:ER; [|discriminate].
        injection E as _ <-.
        destruct (Reset_inv _ _ _ _ ER) as (_ & Hm & Hx). destruct add.
        + destruct Hx as (x & Hx & ->). exists [x]. repeat split; trivial.
          constructor; [|constructor]. eapply Intn_inv; eauto.
        + exists []. rewrite app_nil_r. repeat split; trivial; constructor.
      - destruct (Next s) as [[v s2]|] eqn:EN; [|discriminate].
        injection E as _ <-. destruct (Next_inv _ _ _ EN) as (-> & -> & _).
        exists []. rewrite app_nil_r. repeat split; try constructor.
      - injection E as _ <-. exists []. rewrite app_nil_r.
        repeat split; try constructor. }
    destruct H1 as (pre & Hp & Hm & Hfp & Hnp).
    exists (pre ++ suf). rewrite Hl, Hp, <- app_assoc. split; trivial.
    rewrite Hm in *. repeat split; trivial.
    + rewrite length_app, Hn, Hnp. unfold grows. cbn [filter].
      destruct op as [|[|] ?| |]; reflexivity.
    + apply Forall_app. split; trivial.
Qed.

(* ================================================================= *)
(** ** Further properties of the event loop *)

(** Closes the conjuncts left by a block that changes few fields. *)
Ltac kept :=
  cbn; repeat match goal with |- _ /\ _ => split end;
  auto; try congruence; try discriminate;
  try (left; reflexivity); try (right; reflexivity).

Section HandlerFacts.

Lemma layoutPad_disabled sp e i st :
  layoutPad sp true e i st = layoutPad sp true (noPointer e) i st.
Proof.
  destruct st as [[user sel] out]. reflexivity.
Qed.

Lemma grid_disabled sp e sel :
  grid sp true e sel = grid sp true (noPointer e) sel.
Proof.
  unfold grid. generalize (-1, sel, @nil Effect). generalize pads.
  intros ps. induction ps as [|i ps IH]; intros st; cbn [fold_left].
  - reflexivity.
  - now rewrite layoutPad_disabled, IH.
Qed.

(** What Simon's block and the judging block do to the fields other than
    the cursor, and the timers they start. *)
Lemma simonTurn_keeps g g' out :
  simonTurn g = Some (g', out) ->
  list (sequence g') = list (sequence g) /\
  maxval (sequence g') = maxval (sequence g) /\
  terminating g' = terminating g /\
  (simonPlay g' = true -> simonPlay g = true) /\
  (schedule 0 out = [] \/ schedule 0 out = [(playInterval, CbInvalidate)]).
Proof.
  unfold simonTurn. destruct (simonPlay g) eqn:Hp.
  - destruct (Next (sequence g)) as [[simon sq]|] eqn:HN; [|discriminate].
    destruct (Next_inv _ _ _ HN) as (Hl & Hm & _).
    destruct (simon >=? 0).
    + intros [= <- <-]. kept.
    + rewrite Reset_false. intros [= <- <-]. kept.
  - intros [= <- <-]. kept.
Qed.

Lemma judge_keeps user g g' out :
  judge user g = Some (g', out) ->
  list (sequence g') = list (sequence g) /\
  maxval (sequence g') = maxval (sequence g) /\
  simonPlay g' = simonPlay g /\
  (terminating g = true -> terminating g' = true) /\
  (terminating g = true ->
   schedule 0 out = [] \/ schedule 0 out = [(playInterval, CbLongest)]).
Proof.
  unfold judge. destruct (judging user g).
  - destruct (Next (sequence g)) as [[simon sq]|] eqn:HN; [|discriminate].
    destruct (Next_inv _ _ _ HN) as (Hl & Hm & _). cbn.
    destruct (terminating g) eqn:Ht; cbn;
      case_tests; intros [= <- <-]; kept.
  - intros [= <- <-]. kept.
Qed.

Lemma frame_keeps e g g' out :
  frame e g = Some (g', out) ->
  list (sequence g') = list (sequence g) /\
  maxval (sequence g') = maxval (sequence g) /\
  (simonPlay g' = true -> simonPlay g = true) /\
  (terminating g = true ->
   terminating g' = true /\
   ~ In CbSimonPlay (map snd (schedule 0 out))).
Proof.
  unfold frame.
  destruct (simonTurn g) as [[g1 out1]|] eqn:E1; [|discriminate].
  pose proof (grid_schedule 0 (simonPlay g1) (simonPlay g || terminating g)
                e (selected g1)) as Hg.
  destruct (grid _ _ _ _) as [[user sel] out2]. cbn [snd] in Hg.
  destruct (judge _ _) as [[g3 out3]|] eqn:E3; [|discriminate].
  intros [= <- <-].
  destruct (simonTurn_keeps _ _ _ E1) as (Hl1 & Hm1 & Ht1 & Hp1 & Hs1).
  destruct (judge_keeps _ _ _ _ E3) as (Hl3 & Hm3 & Hp3 & Ht3 & Hs3).
  cbn in *. repeat split; try congruence.
  - intros H. apply Hp1. congruence.
  - apply Ht3. congruence.
  - rewrite !schedule_app, Hg. cbn [app schedule].
    rewrite app_nil_r, map_app. intros Hin. apply in_app_or in Hin.
    destruct Hin as [Hin|Hin].
    + destruct Hs1 as [Es|Es]; rewrite Es in Hin; cbn in Hin;
        intuition discriminate.
    + destruct Hs3 as [Es|Es]; [congruence| |]; rewrite Es in Hin;
        cbn in Hin; intuition discriminate.
Qed.

Lemma keyEvent_keeps state name g :
  let '(g', out) := keyEvent state name g in
  sequence g' = sequence g /\ simonPlay g' = simonPlay g /\
  terminating g' = terminating g /\ schedule 0 out = [].
Proof.
  unfold keyEvent. destruct state; case_tests; cbn; auto.
Qed.

End HandlerFacts.

(** X5.  While Simon plays or the game is terminating the graphics
    context is disabled: the pointer events of a frame have no effect on
    what the frame does. *)
Theorem disabled_frame_ignores_pointer (g : Game) (e : FrameEvent) :
  simonPlay g || terminating g = true ->
  frame e g = frame (noPointer e) g.
Proof.
  intros H. unfold frame. rewrite H.
  destruct (simonTurn g) as [[g1 out1]|]; [|reflexivity].
  now rewrite grid_disabled.
Qed.

(** X6.  Once [terminating] is set it stays set: no event of the window
    and no timer callback clears it, and no event of the window starts a
    timer for a next round. *)
Theorem terminating_is_final (g : Game) :
  terminating g = true ->
  (forall ev g' out,
     handle ev g = Continue g' out ->
     terminating g' = true /\ ~ In CbSimonPlay (map snd (schedule 0 out))) /\
  (forall f raw g' out,
     fire f raw g = Some (g', out) -> terminating g' = true).
Proof.
  intros Ht. split.
  - intros [err|e|state name|] g' out; cbn [handle].
    + discriminate.
    + destruct (frame e g) as [[g1 out1]|] eqn:E; [|discriminate].
      intros [= <- <-]. destruct (frame_keeps _ _ _ _ E) as (_ & _ & _ & H).
      auto.
    + pose proof (keyEvent_keeps state name g) as H.
      destruct (keyEvent state name g) as [g1 out1]. intros [= <- <-].
      destruct H as (_ & _ & H & ->). split; [congruence|intros []].
    + intros [= <- <-]. split; [trivial|intros []].
  - intros [| | |] raw g' out; cbn [fire]; try (now intros [= <- _]).
    destruct (Reset true raw (sequence g)); [|discriminate].
    now intros [= <- _].
Qed.

(** X7.  No event of the window changes the stored list or the bound of
    the sequence, and none starts Simon's turn: only the next-round
    callback does either. *)
Theorem window_events_keep_list (ev : Event) (g g' : Game)
    (out : slice Effect) :
  handle ev g = Continue g' out ->
  list (sequence g') = list (sequence g) /\
  maxval (sequence g') = maxval (sequence g) /\
  (simonPlay g' = true -> simonPlay g = true).
Proof.
  destruct ev as [err|e|state name|]; cbn [handle].
  - discriminate.
  - destruct (frame e g) as [[g1 out1]|] eqn:E; [|discriminate].
    intros [= <- <-]. destruct (frame_keeps _ _ _ _ E) as (? & ? & ? & _).
    auto.
  - pose proof (keyEvent_keeps state name g) as H.
    destruct (keyEvent state name g) as [g1 out1]. intros [= <- <-].
    destruct H as (-> & -> & _). auto.
  - intros [= <- <-]. auto.
Qed.

(** X8.  The loop never panics.  [loop] starts in a state whose sequence
    has its cursor in range, Symbols only and the bound 4; from such a
    state every event of the window is handled without an index out of
    range, every timer callback runs without [rand.Intn] panicking, and
    the state reached is again such a state. *)
Theorem loop_never_panics (g : Game) :
  Safe g ->
  (forall raw, exists g0 out, start raw = Some (g0, out) /\ Safe g0) /\
  (forall ev,
     match handle ev g with
     | Continue g' _ => Safe g'
     | Return _ => True
     | Panic => False
     end) /\
  (forall f raw, exists g' out, fire f raw g = Some (g', out) /\ Safe g').
Proof.
  intros [HI Hk]. split; [|split].
  - intros raw. unfold start.
    destruct (Reset_true raw sequence0 ltac:(cbn; lia)) as (x & _ & Hx & ->).
    do 2 eexists. split; [reflexivity|]. split; [|reflexivity].
    split; [cbn; unfold cursor_ok; cbn; lia|].
    cbn. constructor; [exact Hx|constructor].
  - intros [err|e|state name|]; cbn [handle]; trivial.
    + destruct (frame_total e g HI) as (g' & out & E & HI').
      rewrite E. split; trivial.
      destruct (frame_keeps _ _ _ _ E) as (_ & -> & _). trivial.
    + pose proof (keyEvent_keeps state name g) as H.
      destruct (keyEvent state name g) as [g1 out1].
      destruct H as (Hs & _). unfold Safe. now rewrite Hs.
    + now split.
  - intros [| | |] raw; cbn [fire]; try (do 2 eexists; now split).
    destruct (Reset_true raw (sequence g) ltac:(lia)) as (x & _ & Hx & E).
    rewrite E. do 2 eexists. split; [reflexivity|].
    split; [|exact Hk]. cbn [sequence]. eapply Reset_Inv; eauto.
Qed.

(* ================================================================= *)
(** ** What a frame draws and plays *)

Section GridFacts.

Lemma highlights_app a b : highlights (a ++ b) = highlights a ++ highlights b.
Proof. apply flat_map_app. Qed.

Lemma sounds_app a b : sounds (a ++ b) = sounds a ++ sounds b.
Proof. apply flat_map_app. Qed.

Lemma comparisons_app a b :
  comparisons (a ++ b) = comparisons a ++ comparisons b.
Proof. apply flat_map_app. Qed.

Lemma layoutPad_simon d e i u sel out :
  layoutPad true d e i (u, sel, out) = (u, sel, out ++ padOut e i sel).
Proof.
  unfold layoutPad, padOut; cbn [negb].
  destruct (_ && _); now rewrite <- ?app_assoc.
Qed.

Lemma layoutPad_chosen d e i u sel out :
  0 <= sel ->
  layoutPad false d e i (u, sel, out) = (sel, sel, out ++ padOut e i sel).
Proof.
  intros H. unfold layoutPad, padOut; cbn [negb].
  destruct (Z.geb_spec sel 0); [|lia].
  destruct (_ && _); now rewrite <- ?app_assoc.
Qed.

Lemma layoutPad_scan d e i u sel out :
  sel < 0 ->
  layoutPad false d e i (u, sel, out)
  = (scan i (gtxEvents d e i) u, scan i (gtxEvents d e i) u,
     out ++ padOut e i (scan i (gtxEvents d e i) u)).
Proof.
  intros H. unfold layoutPad, padOut; cbn [negb].
  destruct (Z.geb_spec sel 0); [lia|].
  destruct (_ && _); now rewrite <- ?app_assoc.
Qed.

Lemma scan_from i evs u :
  u = -1 \/ u = i -> scan i evs u = -1 \/ scan i evs u = i.
Proof.
  unfold scan. revert u.
  induction evs as [|ev evs IH]; intros u H; cbn; trivial.
  apply IH. destruct ev; auto.
Qed.

Lemma scan_range i evs : scan i evs (-1) = -1 \/ scan i evs (-1) = i.
Proof. apply scan_from. now left. Qed.

Lemma padOut_highlights e i sel :
  highlights (padOut e i sel) = if sel =? i then [i] else [].
Proof.
  unfold padOut. rewrite highlights_app.
  destruct (_ && _); destruct (sel =? i); reflexivity.
Qed.

Lemma padOut_sounds e i sel :
  sounds (padOut e i sel) = [] \/ sounds (padOut e i sel) = [i] /\ sel = i.
Proof.
  unfold padOut. rewrite sounds_app.
  destruct (Z.eqb_spec sel i) as [->|]; cbn; auto.
  destruct (negb _); cbn; auto.
Qed.

(** With the selection fixed (Simon's symbol, or a selection already
    made), the pads draw it and nothing else. *)
Lemma pads_fixed ps sp d e u sel out :
  sp = true \/ 0 <= sel ->
  exists u' out',
    fold_left (fun st i => layoutPad sp d e i st) ps (u, sel, out)
    = (u', sel, out ++ out') /\
    highlights out' = filter (Z.eqb sel) ps /\
    incl (sounds out') (filter (Z.eqb sel) ps).
Proof.
  intros H. revert u out. induction ps as [|i ps IH]; intros u out.
  - exists u, []. rewrite app_nil_r. cbn. repeat split. intros x [].
  - cbn [fold_left].
    assert (E : exists u1,
               layoutPad sp d e i (u, sel, out)
               = (u1, sel, out ++ padOut e i sel)).
    { destruct H as [->|H]; [rewrite layoutPad_simon; eauto|].
      destruct sp; [rewrite layoutPad_simon; eauto|].
      rewrite layoutPad_chosen by trivial. eauto. }
    destruct E as (u1 & ->).
    destruct (IH u1 (out ++ padOut e i sel)) as (u' & out' & -> & Hh & Hs).
    exists u', (padOut e i sel ++ out'). rewrite app_assoc.
    split; [reflexivity|]. rewrite highlights_app, sounds_app, Hh.
    rewrite padOut_highlights. cbn [filter].
    destruct (padOut_sounds e i sel) as [Es|[Es ->]]; rewrite Es.
    + split; [destruct (sel =? i); reflexivity|].
      cbn [app]. destruct (sel =? i); [apply incl_tl|]; exact Hs.
    + rewrite Z.eqb_refl. split; [reflexivity|].
      cbn [app]. apply incl_cons; [now left|now apply incl_tl].
Qed.

Lemma filter_absent (x : Z) ps : ~ In x ps -> filter (Z.eqb x) ps = [].
Proof.
  induction ps as [|i ps IH]; cbn; trivial. intros H.
  destruct (Z.eqb_spec x i) as [->|_]; [tauto|]. apply IH. tauto.
Qed.

(** Without a selection the pads are scanned in turn: the first pad that
    finds itself pressed is drawn active, and no other. *)
Lemma pads_scanned ps d e sel out :
  sel < 0 -> NoDup ps -> Forall (fun i => 0 <= i) ps ->
  exists u' sel' out',
    fold_left (fun st i => layoutPad false d e i st) ps (-1, sel, out)
    = (u', sel', out ++ out') /\
    (highlights out' = [] \/ exists i, In i ps /\ highlights out' = [i]) /\
    incl (sounds out') (highlights out').
Proof.
  intros Hs Hn Hp. revert sel out Hs.
  induction ps as [|i ps IH]; intros sel out Hs.
  - exists (-1), sel, []. rewrite app_nil_r. cbn. repeat split; auto.
    intros x [].
  - cbn [fold_left]. rewrite layoutPad_scan by trivial.
    inversion Hn as [|? ? Hi Hn']; subst. inversion Hp as [|? ? Hi0 Hp']; subst.
    destruct (scan_range i (gtxEvents d e i)) as [E|E]; rewrite E.
    + destruct (IH Hn' Hp' (-1) (out ++ padOut e i (-1)) ltac:(lia))
        as (u' & sel' & out' & -> & Hh & Hso).
      exists u', sel', (padOut e i (-1) ++ out'). rewrite app_assoc.
      split; [reflexivity|]. rewrite highlights_app, sounds_app.
      rewrite padOut_highlights.
      destruct (Z.eqb_spec (-1) i); [lia|].
      destruct (padOut_sounds e i (-1)) as [Es|[_ Es]]; [|lia]. rewrite Es.
      cbn [app]. split; trivial.
      destruct Hh as [Hh|(j & Hj & Hh)]; [now left|right].
      exists j. split; [now right|trivial].
    + destruct (pads_fixed ps false d e i i (out ++ padOut e i i)
                  ltac:(right; lia)) as (u' & out' & -> & Hh & Hso).
      rewrite filter_absent in Hh, Hso by trivial.
      exists u', i, (padOut e i i ++ out'). rewrite app_assoc.
      split; [reflexivity|]. rewrite highlights_app, sounds_app, Hh.
      rewrite padOut_highlights, Z.eqb_refl. cbn [app].
      split; [right; exists i; split; [now left|reflexivity]|].
      assert (Eo : sounds out' = []).
      { destruct (sounds out') as [|x r]; trivial.
        destruct (Hso x); now left. }
      rewrite Eo, app_nil_r.
      destruct (padOut_sounds e i i) as [Es|[Es _]]; rewrite Es.
      * intros x [].
      * apply incl_refl.
Qed.

Lemma pads_distinct : NoDup pads /\ Forall (fun i => 0 <= i) pads.
Proof.
  split.
  - unfold pads. repeat constructor; cbn; intuition discriminate.
  - unfold pads. repeat constructor; lia.
Qed.

Lemma filter_pads sel :
  filter (Z.eqb sel) pads = [] \/
  In sel pads /\ filter (Z.eqb sel) pads = [sel].
Proof.
  unfold pads. cbn [filter].
  destruct (Z.eqb_spec sel 0) as [->|]; [right; cbn; auto|].
  destruct (Z.eqb_spec sel 1) as [->|]; [right; cbn; auto|].
  destruct (Z.eqb_spec sel 2) as [->|]; [right; cbn; auto|].
  destruct (Z.eqb_spec sel 3) as [->|]; [right; cbn; auto 6|].
  now left.
Qed.

(** The pads of one frame: at most one is drawn active, and a pad sound
    is played for that one only. *)
Lemma grid_draws sp d e sel :
  exists u' sel' out,
    grid sp d e sel = (u', sel', out) /\
    (highlights out = [] \/ exists i, In i pads /\ highlights out = [i]) /\
    incl (sounds out) (highlights out).
Proof.
  unfold grid. destruct pads_distinct as [Hn Hp].
  destruct sp; [|destruct (Z.le_gt_cases 0 sel) as [H|H]].
  - destruct (pads_fixed pads true d e (-1) sel [] ltac:(now left))
      as (u' & out & -> & Hh & Hs).
    exists u', sel, out. split; [reflexivity|]. rewrite Hh.
    split; trivial. destruct (filter_pads sel) as [->|[Hi ->]]; eauto.
  - destruct (pads_fixed pads false d e (-1) sel [] ltac:(now right))
      as (u' & out & -> & Hh & Hs).
    exists u', sel, out. split; [reflexivity|]. rewrite Hh.
    split; trivial. destruct (filter_pads sel) as [->|[Hi ->]]; eauto.
  - destruct (pads_scanned pads d e sel [] ltac:(lia) Hn Hp)
      as (u' & sel' & out & -> & Hh & Hs).
    exists u', sel', out. auto.
Qed.

Lemma simonTurn_silent g g' out :
  simonTurn g = Some (g', out) -> highlights out = [] /\ sounds out = [].
Proof.
  unfold simonTurn. destruct (simonPlay g); [|now intros [= _ <-]].
  destruct (Next (sequence g)) as [[simon sq]|]; [|discriminate].
  destruct (simon >=? 0); [now intros [= _ <-]|].
  rewrite Reset_false. now intros [= _ <-].
Qed.

Lemma judge_silent user g g' out :
  judge user g = Some (g', out) -> highlights out = [] /\ sounds out = [].
Proof.
  unfold judge. destruct (judging user g); [|now intros [= _ <-]].
  destruct (Next (sequence g)) as [[simon sq]|]; [|discriminate].
  cbn. case_tests; now intros [= _ <-].
Qed.

End GridFacts.

(** X9.  In every frame at most one pad is drawn active, it is one of
    the four pads, and a pad sound is played only for the pad drawn
    active. *)
Theorem frame_one_active_pad (e : FrameEvent) (g g' : Game)
    (out : slice Effect) :
  frame e g = Some (g', out) ->
  (highlights out = [] \/ exists i, In i pads /\ highlights out = [i]) /\
  incl (sounds out) (highlights out).
Proof.
  unfold frame.
  destruct (simonTurn g) as [[g1 out1]|] eqn:E1; [|discriminate].
  destruct (grid_draws (simonPlay g1) (simonPlay g || terminating g) e
              (selected g1)) as (user & sel & out2 & -> & Hh & Hs).
  destruct (judge _ _) as [[g3 out3]|] eqn:E3; [|discriminate].
  intros [= _ <-].
  destruct (simonTurn_silent _ _ _ E1) as [Hh1 Hs1].
  destruct (judge_silent _ _ _ _ E3) as [Hh3 Hs3].
  rewrite !highlights_app, !sounds_app, Hh1, Hs1, Hh3, Hs3.
  cbn [app highlights sounds flat_map]. rewrite !app_nil_r. auto.
Qed.

(* ================================================================= *)
(** ** A whole turn *)

Section TurnFacts.

Lemma layoutPad_comparisons sp d e i st :
  comparisons (snd (layoutPad sp d e i st)) = comparisons (snd st).
Proof.
  destruct st as [[user sel] out]. unfold layoutPad.
  destruct (if negb sp then _ else _) as [user' sel'].
  destruct (_ && _); cbn [snd]; rewrite !comparisons_app; cbn;
    now rewrite ?app_nil_r.
Qed.

Lemma grid_comparisons sp d e sel : comparisons (snd (grid sp d e sel)) = [].
Proof.
  unfold grid. change [] with (comparisons (snd (-1, sel, @nil Effect))) at 2.
  generalize (-1, sel, @nil Effect). generalize pads. intros ps.
  induction ps as [|i ps IH]; intros st; cbn [fold_left].
  - reflexivity.
  - now rewrite IH, layoutPad_comparisons.
Qed.

Lemma Next_at (l1 l2 : slice Z) x k :
  Next (mkSequence (l1 ++ x :: l2) (len l1) k)
  = Some (x, mkSequence (l1 ++ x :: l2) (len l1 + 1) k).
Proof.
  unfold Next; cbn [list lindex maxval].
  destruct (Z.eqb_spec (len l1) (len (l1 ++ x :: l2))) as [E|_].
  - rewrite len_app in E. unfold len in E; cbn in E. lia.
  - now rewrite index_app_middle.
Qed.

Lemma HasNext_at (l1 l2 : slice Z) x k :
  HasNext (mkSequence (l1 ++ x :: l2) (len l1 + 1) k)
  = match l2 with [] => false | _ => true end.
Proof.
  unfold HasNext; cbn [list lindex]. rewrite len_app.
  destruct l2; unfold len; cbn [Datatypes.length];
    [apply Z.ltb_ge|apply Z.ltb_lt]; lia.
Qed.

Lemma shift_cursor (l1 l2 : slice Z) x k :
  mkSequence (l1 ++ x :: l2) (len l1 + 1) k
  = mkSequence ((l1 ++ [x]) ++ l2) (len (l1 ++ [x])) k.
Proof.
  rewrite <- app_assoc, len_app. reflexivity.
Qed.

(** A frame of Simon's turn with a symbol left to play. *)
Lemma simon_frame e t sel (l1 l2 : slice Z) x :
  Symbol 4 x ->
  exists out,
    frame e (mkGame true t sel (mkSequence (l1 ++ x :: l2) (len l1) 4))
    = Some (mkGame true t (-1) (mkSequence (l1 ++ x :: l2) (len l1 + 1) 4),
            out) /\
    highlights out = [x] /\
    schedule 0 out = [(playInterval, CbInvalidate)].
Proof.
  intros Hx. unfold frame, simonTurn; cbn [simonPlay sequence terminating].
  rewrite Next_at. unfold Symbol in Hx.
  destruct (Z.geb_spec x 0); [|lia]. cbn [simonPlay selected orb].
  pose proof (grid_schedule 0 true true e x) as Hg. unfold grid in *.
  destruct (pads_fixed pads true true e (-1) x [] ltac:(now left))
    as (u' & out2 & E & Hh & _).
  rewrite E in *. cbn [snd app] in Hg. cbn [app].
  unfold judge, judging; cbn [simonPlay negb andb].
  eexists. split; [reflexivity|]. split.
  - change (highlights (out2 ++ [] ++ [Frame]) = [x]).
    rewrite highlights_app, Hh. cbn [app highlights flat_map].
    rewrite app_nil_r.
    assert (Hc : x = 0 \/ x = 1 \/ x = 2 \/ x = 3) by lia.
    destruct Hc as [-> | [-> | [-> | ->]]]; reflexivity.
  - cbn [schedule]. rewrite schedule_app, Hg. reflexivity.
Qed.

(** The frame of Simon's turn that finds the sequence played. *)
Lemma handover_frame e t (l : slice Z) :
  exists out,
    frame e (mkGame true t (-1) (mkSequence l (len l) 4))
    = Some (mkGame false t (-1) (mkSequence l 0 4), out) /\
    In (Println user_play) out /\
    schedule 0 out = [].
Proof.
  unfold frame, simonTurn; cbn [simonPlay sequence terminating].
  rewrite Next_end by reflexivity. cbn [Z.geb Z.compare]. rewrite Reset_false.
  cbn [simonPlay selected orb list maxval sequence terminating].
  rewrite grid_disabled.
  destruct (grid_quiet true (noPointer e) (-1) ltac:(lia) eq_refl)
    as (out2 & -> & Hs).
  unfold judge, judging; cbn.
  eexists. split; [reflexivity|]. split; [now left|].
  cbn [schedule]. rewrite schedule_app, Hs. reflexivity.
Qed.

Lemma playback_from (l2 l1 : slice Z) t sel es :
  Forall (Symbol 4) l2 ->
  Datatypes.length es = Datatypes.length l2 ->
  exists out,
    frames es (mkGame true t sel (mkSequence (l1 ++ l2) (len l1) 4))
    = Some (mkGame true t (match l2 with [] => sel | _ => -1 end)
              (mkSequence (l1 ++ l2) (len (l1 ++ l2)) 4), out) /\
    highlights out = l2 /\
    schedule 0 out = map (fun _ => (playInterval, CbInvalidate)) l2.
Proof.
  revert l1 sel es. induction l2 as [|x l2 IH]; intros l1 sel es Hf Hn.
  - destruct es; [|discriminate]. rewrite app_nil_r. cbn. eauto.
  - destruct es as [|e es]; [discriminate|]. injection Hn as Hn.
    inversion Hf as [|? ? Hx Hf']; subst. cbn [frames].
    destruct (simon_frame e t sel l1 l2 x Hx) as (out1 & -> & Hh & Hs).
    rewrite shift_cursor.
    destruct (IH (l1 ++ [x]) (-1) es Hf' Hn) as (out2 & -> & Hh2 & Hs2).
    exists (out1 ++ out2). split; [|split].
    + rewrite <- app_assoc. cbn [app]. destruct l2; reflexivity.
    + now rewrite highlights_app, Hh, Hh2.
    + now rewrite schedule_app, Hs, Hs2.
Qed.

(** A frame of the player's phase whose selection is the symbol at the
    cursor. *)
Lemma player_frame e (l1 l2 : slice Z) x :
  0 <= x -> pick e = x ->
  exists out,
    frame e (mkGame false false (-1) (mkSequence (l1 ++ x :: l2) (len l1) 4))
    = Some (mkGame false false (-1)
              (mkSequence (l1 ++ x :: l2) (len l1 + 1) 4), out) /\
    comparisons out = [(x + 1, x + 1)] /\
    schedule 0 out = match l2 with
                     | [] => [(resetTime, CbSimonPlay)]
                     | _ => []
                     end.
Proof.
  intros Hx Hp. rewrite frame_player by reflexivity.
  cbn [terminating selected sequence]. unfold pick in Hp.
  pose proof (grid_schedule 0 false false e (-1)) as Hs.
  pose proof (grid_comparisons false false e (-1)) as Hc.
  destruct (grid false false e (-1)) as [[user sel] out2].
  cbn [fst snd] in *. subst user.
  assert (Hge : (x >=? 0) = true) by (destruct (Z.geb_spec x 0); [trivial|lia]).
  unfold judge, judging; cbn [simonPlay sequence terminating selected negb andb].
  rewrite Hge, Next_at, Hge, Z.eqb_refl.
  cbn [negb simonPlay terminating sequence selected andb].
  rewrite HasNext_at.
  destruct l2; cbn [negb]; (eexists; split; [reflexivity|]);
    rewrite !comparisons_app, !schedule_app, Hc, Hs; split; reflexivity.
Qed.

Lemma reproduce_from (l2 l1 : slice Z) es :
  Forall (Symbol 4) l2 ->
  map pick es = l2 ->
  exists out,
    frames es (mkGame false false (-1) (mkSequence (l1 ++ l2) (len l1) 4))
    = Some (mkGame false false (-1)
              (mkSequence (l1 ++ l2) (len (l1 ++ l2)) 4), out) /\
    comparisons out = map (fun x => (x + 1, x + 1)) l2 /\
    schedule 0 out = match l2 with
                     | [] => []
                     | _ => [(resetTime, CbSimonPlay)]
                     end.
Proof.
  revert l1 es. induction l2 as [|x l2 IH]; intros l1 es Hf Hm.
  - destruct es; [|discriminate]. rewrite app_nil_r. cbn. eauto.
  - destruct es as [|e es]; [discriminate|]. injection Hm as Hp Hm.
    inversion Hf as [|? ? Hx Hf']; subst l. cbn [frames].
    destruct (player_frame e l1 l2 x ltac:(unfold Symbol in Hx; lia) Hp)
      as (out1 & -> & Hc & Hs).
    rewrite shift_cursor.
    destruct (IH (l1 ++ [x]) es Hf' Hm) as (out2 & -> & Hc2 & Hs2).
    exists (out1 ++ out2). split; [|split].
    + rewrite <- app_assoc. reflexivity.
    + now rewrite comparisons_app, Hc, Hc2.
    + rewrite schedule_app, Hs, Hs2. destruct l2; reflexivity.
Qed.

End TurnFacts.

(** X10.  Simon's turn plays the whole sequence: on a sequence of
    Symbols with the cursor at 0, one frame per symbol draws the stored
    symbols active in their order, each frame starting the timer of the
    next one, and leaves the cursor at the end; the frame after the last
    symbol starts no timer, rewinds the cursor and opens the player's
    phase. *)
Theorem playback_plays_sequence
    (l : slice Z) (t : bool) (sel : Z) (es : slice FrameEvent)
    (e : FrameEvent) :
  l <> [] ->
  Forall (Symbol 4) l ->
  Datatypes.length es = Datatypes.length l ->
  exists out out',
    frames es (mkGame true t sel (mkSequence l 0 4))
    = Some (mkGame true t (-1) (mkSequence l (len l) 4), out) /\
    highlights out = l /\
    schedule 0 out = map (fun _ => (playInterval, CbInvalidate)) l /\
    frame e (mkGame true t (-1) (mkSequence l (len l) 4))
    = Some (mkGame false t (-1) (mkSequence l 0 4), out') /\
    In (Println user_play) out' /\
    schedule 0 out' = [].
Proof.
  intros Hne Hf Hn.
  destruct (playback_from l [] t sel es Hf Hn) as (out & E & Hh & Hs).
  destruct (handover_frame e t l) as (out' & E' & Hu & Hs').
  exists out, out'. cbn [app len Datatypes.length Z.of_nat] in E.
  destruct l as [|x l]; [congruence|]. auto 7.
Qed.

(** X11.  A faultless reproduction wins the round: when the frames of
    the player's phase select the stored symbols in their order, every
    selection is compared with its symbol and matches, [terminating]
    stays unset, and exactly one timer is started, for the next round,
    by the frame of the last symbol. *)
Theorem faultless_round_is_won (l : slice Z) (es : slice FrameEvent) :
  l <> [] ->
  Forall (Symbol 4) l ->
  map pick es = l ->
  exists out,
    frames es (mkGame false false (-1) (mkSequence l 0 4))
    = Some (mkGame false false (-1) (mkSequence l (len l) 4), out) /\
    comparisons out = map (fun x => (x + 1, x + 1)) l /\
    schedule 0 out = [(resetTime, CbSimonPlay)].
Proof.
  intros Hne Hf Hm.
  destruct (reproduce_from l [] es Hf Hm) as (out & E & Hc & Hs).
  exists out. cbn [app len Datatypes.length Z.of_nat] in E.
  destruct l as [|x l]; [congruence|]. auto.
Qed.

Section PressFacts.

Lemma pads_chosen ps d e sel out :
  0 <= sel ->
  fst (fst (fold_left (fun st j => layoutPad false d e j st)
                      ps (sel, sel, out))) = sel.
Proof.
  intros H. revert out. induction ps as [|j ps IH]; intros out.
  - reflexivity.
  - cbn [fold_left]. rewrite layoutPad_chosen by trivial. apply IH.
Qed.

Lemma pads_first ps1 i ps2 d e sel out :
  sel < 0 -> 0 <= i ->
  Forall (fun j => scan j (gtxEvents d e j) (-1) = -1) ps1 ->
  scan i (gtxEvents d e i) (-1) = i ->
  fst (fst (fold_left (fun st j => layoutPad false d e j st)
                      (ps1 ++ i :: ps2) (-1, sel, out))) = i.
Proof.
  intros Hs Hi Hq Hp. revert sel out Hs.
  induction Hq as [|j ps1 Hj Hq IH]; intros sel out Hs; cbn [app fold_left].
  - rewrite layoutPad_scan, Hp by trivial. now apply pads_chosen.
  - rewrite layoutPad_scan, Hj by trivial. apply IH. lia.
Qed.

End PressFacts.

(** X12.  When presses are queued on several pads, the pad laid out
    first wins: if no pad before pad [i] ends its scan selected and pad
    [i] does (its last press is not followed by a release), the frame
    selects pad [i], whatever is queued on the pads after it. *)
Theorem first_pressed_pad_wins (e : FrameEvent) (i : Z) :
  In i pads ->
  (forall j, In j pads -> j < i -> scan j (Events e j) (-1) = -1) ->
  scan i (Events e i) (-1) = i ->
  pick e = i.
Proof.
  intros Hi Hq Hp. unfold pick, grid.
  assert (Hc : i = 0 \/ i = 1 \/ i = 2 \/ i = 3) by (cbn in Hi; lia).
  assert (Hb : forall j, In j pads -> j < i ->
               scan j (gtxEvents false e j) (-1) = -1) by exact Hq.
  assert (Ha : scan i (gtxEvents false e i) (-1) = i) by exact Hp.
  unfold pads in *. clear Hq Hp Hi.
  destruct Hc as [-> | [-> | [-> | ->]]].
  - apply (pads_first [] 0 [1; 2; 3]); trivial; lia.
  - apply (pads_first [0] 1 [2; 3]); trivial; try lia.
    repeat constructor; apply Hb; cbn; auto; lia.
  - apply (pads_first [0; 1] 2 [3]); trivial; try lia.
    repeat constructor; apply Hb; cbn; auto; lia.
  - apply (pads_first [0; 1; 2] 3 []); trivial; try lia.
    repeat constructor; apply Hb; cbn; auto; lia.
Qed.

(* ================================================================= *)
(** ** Colours, keys and pad areas *)

(** X13.  [Darker] keeps alpha and halves the three colour channels: the
    result is again a colour, no channel is brighter than before and
    none exceeds 127; only black is left unchanged. *)
Theorem Darker_darkens (c : color.NRGBA) :
  validColor c ->
  validColor (Darker c) /\
  color.A (Darker c) = color.A c /\
  color.R (Darker c) <= Z.min (color.R c) 127 /\
  color.G (Darker c) <= Z.min (color.G c) 127 /\
  color.B (Darker c) <= Z.min (color.B c) 127 /\
  (Darker c = c <-> color.R c = 0 /\ color.G c = 0 /\ color.B c = 0).
Proof.
  destruct c as [r g b a]. unfold validColor, uint8, Darker; cbn.
  intros (Hr & Hg & Hb & Ha).
  pose proof (Z.div_mod r 2 ltac:(lia)).
  pose proof (Z.mod_pos_bound r 2 ltac:(lia)).
  pose proof (Z.div_mod g 2 ltac:(lia)).
  pose proof (Z.mod_pos_bound g 2 ltac:(lia)).
  pose proof (Z.div_mod b 2 ltac:(lia)).
  pose proof (Z.mod_pos_bound b 2 ltac:(lia)).
  repeat match goal with |- _ /\ _ => split end; try lia.
  split.
  - intros [= ? ? ?]. lia.
  - intros (-> & -> & ->). reflexivity.
Qed.

(** The table of pads agrees with the key handler and with the
    drawing: there is one pad per index laid out, the key named by the
    label of pad [i] is one of the keys the handler accepts and selects
    pad [i], and every pad is drawn in a colour other than its own when
    it is not active. *)
Lemma padsTable_consistent (i : nat) (pad : Pad) :
  nth_error padsTable i = Some pad ->
  nth_error pads i = Some (Z.of_nat i) /\
  Datatypes.length padsTable = Datatypes.length pads /\
  keyIndex (label pad) = Z.of_nat i /\
  (forall g, simonPlay g = false ->
     selected (fst (keyEvent KeyPress (label pad) g)) = Z.of_nat i) /\
  validColor (color pad) /\
  fill pad true = color pad /\
  fill pad false <> fill pad true.
Proof.
  intros H.
  destruct i as [|[|[|[|i]]]]; cbn in H;
    [| | | |destruct i; discriminate]; injection H as <-;
    (split; [reflexivity|]); (split; [reflexivity|]);
    (split; [reflexivity|]);
    (split; [intros [sp t sel sq] Hp; cbn in Hp; subst sp; reflexivity|]);
    (split; [unfold validColor, uint8; cbn; lia|]);
    (split; [reflexivity|discriminate]).
Qed.

(** X14.  The four pad areas tile the window: a pixel belongs to the
    area of some pad exactly when it lies inside the 800 by 600 window,
    and then to the area of one pad only. *)
Theorem pad_areas_tile_window (p : image.Point) :
  ((exists i, In i pads /\ image.In p (pos i) = true) <->
   0 <= image.X p < ww /\ 0 <= image.Y p < wh) /\
  (forall i j, In i pads -> In j pads ->
     image.In p (pos i) = true -> image.In p (pos j) = true -> i = j).
Proof.
  destruct p as [x y].
  assert (H : forall i, In i pads ->
            (image.In (image.mkPoint x y) (pos i) = true <->
             (if i =? 0 then 0 <= x < 400 /\ 0 <= y < 300
              else if i =? 1 then 400 <= x < 800 /\ 0 <= y < 300
              else if i =? 2 then 0 <= x < 400 /\ 300 <= y < 600
              else 400 <= x < 800 /\ 300 <= y < 600))).
  { intros i Hi. cbn in Hi.
    destruct Hi as [<- | [<- | [<- | [<- | []]]]];
      unfold image.In; cbn; unfold ww, wh;
      rewrite !andb_true_iff, !Z.leb_le, !Z.ltb_lt; lia. }
  unfold ww, wh. cbn [image.X image.Y]. split; [split|].
  - intros (i & Hi & Hin). apply (H i Hi) in Hin. cbn in Hi.
    destruct Hi as [<- | [<- | [<- | [<- | []]]]]; cbn in Hin; lia.
  - intros Hw.
    destruct (Z.lt_ge_cases x 400), (Z.lt_ge_cases y 300).
    + exists 0. split; [cbn; auto|]. apply (H 0); cbn; auto; lia.
    + exists 2. split; [cbn; auto|]. apply (H 2); cbn; auto; lia.
    + exists 1. split; [cbn; auto|]. apply (H 1); cbn; auto; lia.
    + exists 3. split; [cbn; auto 6|]. apply (H 3); cbn; auto 6; lia.
  - intros i j Hi Hj Hpi Hpj.
    apply (H i Hi) in Hpi. apply (H j Hj) in Hpj. cbn in Hi, Hj.
    destruct Hi as [<- | [<- | [<- | [<- | []]]]];
      destruct Hj as [<- | [<- | [<- | [<- | []]]]];
      cbn in Hpi, Hpj; lia.
Qed.

(** X15.  A key event changes no field but [selected], which it sets to
    a pad index or to [-1]; it starts no timer and only ever asks for a
    redraw or for the window to close.  While Simon plays a key press
    changes nothing at all, whatever the key. *)
Theorem key_event_effects (state : KeyState) (name : string) (g : Game) :
  let '(g', out) := keyEvent state name g in
  sequence g' = sequence g /\
  simonPlay g' = simonPlay g /\
  terminating g' = terminating g /\
  (selected g' = selected g \/ -1 <= selected g' < 4) /\
  (simonPlay g = true -> state = KeyPress -> g' = g) /\
  (out = [] \/ out = [Invalidate] \/ out = [Close]).
Proof.
  unfold keyEvent. destruct state.
  - destruct (String.eqb_spec name "1") as [->|_];
      [|destruct (String.eqb_spec name "2") as [->|_];
        [|destruct (String.eqb_spec name "3") as [->|_];
          [|destruct (String.eqb_spec name "4") as [->|_]]]];
      cbn [orb].
    1-4: destruct (simonPlay g) eqn:Hp; cbn [negb];
      repeat match goal with |- _ /\ _ => split end;
      auto; try (intros; congruence);
      right; vm_compute; easy.
    destruct (_ || _);
      repeat match goal with |- _ /\ _ => split end; auto.
  - repeat match goal with |- _ /\ _ => split end;
      auto; try discriminate. right. cbn. lia.
Qed.

(** X16.  A selection made in the player's phase once the sequence is
    used up is compared with nothing and changes no field, but it starts
    a timer for the next round, like the selection that completed the
    round did. *)
Theorem selection_after_last_symbol (g : Game) (e : FrameEvent) :
  AwaitingPlayer g ->
  lindex (sequence g) = Len (sequence g) ->
  0 <= frameUser e g ->
  exists out,
    frame e g = Some (mkGame false false (-1) (sequence g), out) /\
    comparisons out = [] /\
    schedule 0 out = [(resetTime, CbSimonPlay)].
Proof.
  intros [Hp Ht] He Hu. rewrite frameUser_player in Hu by trivial.
  rewrite frame_player by trivial. rewrite Ht in *.
  pose proof (grid_schedule 0 false false e (selected g)) as Hs.
  pose proof (grid_comparisons false false e (selected g)) as Hc.
  destruct (grid false false e (selected g)) as [[user sel] out2].
  cbn [fst snd] in *.
  assert (Hge : (user >=? 0) = true)
    by (destruct (Z.geb_spec user 0); [trivial|lia]).
  assert (Hn : HasNext (sequence g) = false)
    by (unfold HasNext, Len in *; apply Z.ltb_ge; lia).
  unfold judge, judging;
    cbn [simonPlay sequence terminating selected negb andb].
  rewrite Hge, (Next_end _ He).
  cbn [Z.geb Z.compare simonPlay sequence terminating selected negb andb].
  rewrite Hn. cbn [negb].
  eexists. split; [reflexivity|].
  rewrite !comparisons_app, !schedule_app, Hc, Hs. split; reflexivity.
Qed.

(* ================================================================= *)
(** ** The further theorems at concrete states *)

Lemma calls_append_only_witness :
  calls [OpReset true 6; OpNext; OpReset true 3] sequence0
  = Some (mkSequence [2; 3] 0 4) /\
  exists suffix,
    list (mkSequence [2; 3] 0 4) = list sequence0 ++ suffix /\
    Datatypes.length suffix = grows [OpReset true 6; OpNext; OpReset true 3] /\
    Forall (Symbol (maxval sequence0)) suffix /\
    maxval (mkSequence [2; 3] 0 4) = maxval sequence0.
Proof.
  split; [reflexivity|].
  exact (calls_append_only [OpReset true 6; OpNext; OpReset true 3]
           sequence0 (mkSequence [2; 3] 0 4) eq_refl).
Defined.

Lemma disabled_frame_ignores_pointer_witness :
  simonPlay playing || terminating playing = true /\
  frame (press 1) playing = frame (noPointer (press 1)) playing.
Proof.
  split; [reflexivity|].
  exact (disabled_frame_ignores_pointer playing (press 1) eq_refl).
Defined.

Lemma terminating_is_final_witness :
  terminating mismatched = true /\
  (forall ev g' out,
     handle ev mismatched = Continue g' out ->
     terminating g' = true /\ ~ In CbSimonPlay (map snd (schedule 0 out))) /\
  (forall f raw g' out,
     fire f raw mismatched = Some (g', out) -> terminating g' = true).
Proof.
  split; [reflexivity|].
  exact (terminating_is_final mismatched eq_refl).
Defined.

Lemma window_events_keep_list_witness :
  exists g' out,
    handle (FrameEv (press 1)) scenario2 = Continue g' out /\
    list (sequence g') = list (sequence scenario2) /\
    maxval (sequence g') = maxval (sequence scenario2) /\
    (simonPlay g' = true -> simonPlay scenario2 = true).
Proof.
  do 2 eexists. split; [vm_compute; reflexivity|].
  eapply (window_events_keep_list (FrameEv (press 1)) scenario2).
  vm_compute. reflexivity.
Defined.

Lemma Safe_scenario2 : Safe scenario2.
Proof.
  split; [exact Inv_scenario2|reflexivity].
Defined.

Lemma loop_never_panics_witness :
  Safe scenario2 /\
  (forall raw, exists g0 out, start raw = Some (g0, out) /\ Safe g0) /\
  (forall ev,
     match handle ev scenario2 with
     | Continue g' _ => Safe g'
     | Return _ => True
     | Panic => False
     end) /\
  (forall f raw,
     exists g' out, fire f raw scenario2 = Some (g', out) /\ Safe g').
Proof.
  split; [exact Safe_scenario2|].
  exact (loop_never_panics scenario2 Safe_scenario2).
Defined.

Lemma frame_one_active_pad_witness :
  exists g' out,
    frame (press 1) scenario2 = Some (g', out) /\
    (highlights out = [] \/ exists i, In i pads /\ highlights out = [i]) /\
    incl (sounds out) (highlights out).
Proof.
  do 2 eexists. split; [vm_compute; reflexivity|].
  eapply (frame_one_active_pad (press 1) scenario2).
  vm_compute. reflexivity.
Defined.

Lemma playback_plays_sequence_witness :
  exists out out',
    frames [quiet; quiet] playing
    = Some (mkGame true false (-1) (mkSequence [2; 0] (len [2; 0]) 4), out) /\
    highlights out = [2; 0] /\
    schedule 0 out
    = map (fun _ => (playInterval, CbInvalidate)) [2; 0] /\
    frame quiet (mkGame true false (-1) (mkSequence [2; 0] (len [2; 0]) 4))
    = Some (mkGame false false (-1) (mkSequence [2; 0] 0 4), out') /\
    In (Println user_play) out' /\
    schedule 0 out' = [].
Proof.
  apply (playback_plays_sequence [2; 0] false (-1) [quiet; quiet] quiet).
  - discriminate.
  - repeat constructor; unfold Symbol; lia.
  - reflexivity.
Defined.

Lemma faultless_round_is_won_witness :
  map pick [press 2; press 0] = [2; 0] /\
  exists out,
    frames [press 2; press 0] (mkGame false false (-1) (mkSequence [2; 0] 0 4))
    = Some (mkGame false false (-1) (mkSequence [2; 0] (len [2; 0]) 4), out) /\
    comparisons out = map (fun x => (x + 1, x + 1)) [2; 0] /\
    schedule 0 out = [(resetTime, CbSimonPlay)].
Proof.
  split; [reflexivity|].
  apply (faultless_round_is_won [2; 0] [press 2; press 0]).
  - discriminate.
  - repeat constructor; unfold Symbol; lia.
  - reflexivity.
Defined.

Lemma first_pressed_pad_wins_witness :
  scan 1 (Events pressTwoPads 1) (-1) = 1 /\
  scan 3 (Events pressTwoPads 3) (-1) = 3 /\
  pick pressTwoPads = 1.
Proof.
  split; [reflexivity|]. split; [reflexivity|].
  apply (first_pressed_pad_wins pressTwoPads 1).
  - right. left. reflexivity.
  - intros j Hj Hlt.
    destruct Hj as [<- | [<- | [<- | [<- | []]]]];
      first [reflexivity | lia].
  - reflexivity.
Defined.

Lemma Darker_darkens_witness :
  validColor (color.mkNRGBA 0 200 0 255) /\
  Darker (color.mkNRGBA 0 200 0 255) = color.mkNRGBA 0 100 0 255 /\
  validColor (Darker (color.mkNRGBA 0 200 0 255)).
Proof.
  assert (H : validColor (color.mkNRGBA 0 200 0 255))
    by (unfold validColor, uint8; cbn; lia).
  split; [exact H|]. split; [reflexivity|].
  exact (proj1 (Darker_darkens (color.mkNRGBA 0 200 0 255) H)).
Defined.

Lemma selection_after_last_symbol_witness :
  AwaitingPlayer roundDone /\
  lindex (sequence roundDone) = Len (sequence roundDone) /\
  frameUser (press 2) roundDone = 2 /\
  exists out,
    frame (press 2) roundDone
    = Some (mkGame false false (-1) (sequence roundDone), out) /\
    comparisons out = [] /\
    schedule 0 out = [(resetTime, CbSimonPlay)].
Proof.
  split; [split; reflexivity|]. split; [reflexivity|]. split; [reflexivity|].
  apply (selection_after_last_symbol roundDone (press 2)).
  - split; reflexivity.
  - reflexivity.
  - vm_compute. discriminate.
Defined.

(* ================================================================= *)
(** ** The report of a failure *)

Section ReportFacts.

Lemma reports_app a b : reports (a ++ b) = reports a ++ reports b.
Proof. apply flat_map_app. Qed.

Lemma schedule_callbacks now out :
  map snd (schedule now out) = map snd (schedule 0 out).
Proof.
  induction out as [|[] out IH]; cbn; congruence.
Qed.

Lemma layoutPad_reports sp d e i st :
  reports (snd (layoutPad sp d e i st)) = reports (snd st).
Proof.
  destruct st as [[user sel] out]. unfold layoutPad.
  destruct (if negb sp then _ else _) as [user' sel'].
  destruct (_ && _); cbn [snd]; rewrite !reports_app; cbn;
    now rewrite ?app_nil_r.
Qed.

Lemma grid_reports sp d e sel : reports (snd (grid sp d e sel)) = [].
Proof.
  unfold grid. change [] with (reports (snd (-1, sel, @nil Effect))) at 2.
  generalize (-1, sel, @nil Effect). generalize pads. intros ps.
  induction ps as [|i ps IH]; intros st; cbn [fold_left].
  - reflexivity.
  - now rewrite IH, layoutPad_reports.
Qed.

(** No event of the window prints a report. *)
Lemma frame_reports e g g' out : frame e g = Some (g', out) -> reports out = [].
Proof.
  unfold frame.
  destruct (simonTurn g) as [[g1 out1]|] eqn:E1; [|discriminate].
  pose proof (grid_reports (simonPlay g1) (simonPlay g || terminating g) e
                (selected g1)) as Hg.
  destruct (grid _ _ _ _) as [[user sel] out2]. cbn [snd] in Hg.
  destruct (judge _ _) as [[g3 out3]|] eqn:E3; [|discriminate].
  intros [= _ <-]. rewrite !reports_app, Hg.
  assert (H1 : reports out1 = []).
  { revert E1. unfold simonTurn. destruct (simonPlay g); [|now intros [= _ <-]].
    destruct (Next (sequence g)) as [[simon sq]|]; [|discriminate].
    destruct (simon >=? 0); [now intros [= _ <-]|].
    rewrite Reset_false. now intros [= _ <-]. }
  assert (H3 : reports out3 = []).
  { revert E3. unfold judge. destruct (judging _ _); [|now intros [= _ <-]].
    destruct (Next _) as [[simon sq]|]; [|discriminate].
    cbn. case_tests; now intros [= _ <-]. }
  now rewrite H1, H3.
Qed.

Lemma keyEvent_reports state name g :
  reports (snd (keyEvent state name g)) = [].
Proof.
  unfold keyEvent. destruct state; case_tests; reflexivity.
Qed.

Lemma earliest_In ts t f rest :
  earliest ts = Some (t, f, rest) ->
  In f (map snd ts) /\ incl (map snd rest) (map snd ts).
Proof.
  revert t f rest. induction ts as [|[t0 f0] ts IH]; intros t f rest; cbn.
  - discriminate.
  - destruct (earliest ts) as [[[t1 f1] rest1]|].
    + destruct (IH _ _ _ eq_refl) as [Hin Hincl].
      cbn [fst]. destruct (t0 <=? t1); intros [= <- <- <-]; cbn.
      * split; [now left|]. apply incl_tl, incl_refl.
      * split; [now right|].
        apply incl_cons; [now left|]. now apply incl_tl.
    + intros [= <- <- <-]. cbn. split; [now left|]. intros x [].
Qed.

(** After a mismatch, as long as no timer for a next round is pending:
    the stored list stays as it is, no such timer is started, and
    whatever is reported is the length of the list less one. *)
Lemma step_terminated i w w' :
  terminating (game w) = true ->
  ~ nextRoundPending (timers w) ->
  step i w = Some w' ->
  list (sequence (game w')) = list (sequence (game w)) /\
  terminating (game w') = true /\
  ~ nextRoundPending (timers w') /\
  exists new,
    output w' = output w ++ new /\
    Forall (fun n => n = Len (sequence (game w)) - 1) (reports new).
Proof.
  intros Ht Hp. unfold nextRoundPending in *.
  destruct i as [at_ ev|raw]; cbn [step].
  - destruct (_ && _); [|discriminate].
    destruct (handle ev (game w)) as [g out| |] eqn:E; try discriminate.
    intros [= <-]. cbn [game timers output].
    assert (H : list (sequence g) = list (sequence (game w)) /\
                terminating g = true /\
                ~ In CbSimonPlay (map snd (schedule 0 out)) /\
                reports out = []).
    { destruct ev as [err|e|state name|]; cbn [handle] in E.
      - discriminate.
      - destruct (frame e (game w)) as [[g1 out1]|] eqn:Ef; [|discriminate].
        injection E as <- <-.
        destruct (frame_keeps _ _ _ _ Ef) as (Hl & _ & _ & Hk).
        destruct (Hk Ht) as [Ht' Hn].
        repeat split; trivial. exact (frame_reports _ _ _ _ Ef).
      - pose proof (keyEvent_keeps state name (game w)) as Hk.
        pose proof (keyEvent_reports state name (game w)) as Hr.
        destruct (keyEvent state name (game w)) as [g1 out1].
        injection E as <- <-. destruct Hk as (Hs & _ & Hk & Ho).
        cbn [snd] in Hr. rewrite Hs, Hk, Ho. repeat split; trivial.
        intros [].
      - injection E as <- <-. repeat split; trivial. intros []. }
    destruct H as (Hl & Ht' & Hn & Hr). repeat split; trivial.
    + rewrite map_app, schedule_callbacks. intros Hin.
      apply in_app_or in Hin. tauto.
    + exists out. split; [reflexivity|]. rewrite Hr. constructor.
  - destruct (earliest (timers w)) as [[[t f] rest]|] eqn:Ee; [|discriminate].
    destruct (earliest_In _ _ _ _ Ee) as [Hf Hrest].
    destruct (fire f raw (game w)) as [[g out]|] eqn:E; [|discriminate].
    intros [= <-]. cbn [game timers output].
    destruct f; [| | |tauto]; cbn [fire] in E; injection E as <- <-;
      (repeat split; trivial;
       [rewrite map_app; intros Hin; apply in_app_or in Hin;
        destruct Hin as [Hin|Hin];
        [apply Hp, Hrest, Hin|cbn in Hin; intuition discriminate]
       |eexists; split; [reflexivity|]; cbn; repeat constructor]).
Qed.

End ReportFacts.

Section ReportRuns.

Lemma run_terminated ins w w' :
  terminating (game w) = true ->
  ~ nextRoundPending (timers w) ->
  run ins w = Some w' ->
  list (sequence (game w')) = list (sequence (game w)) /\
  terminating (game w') = true /\
  ~ nextRoundPending (timers w') /\
  exists new,
    output w' = output w ++ new /\
    Forall (fun n => n = Len (sequence (game w)) - 1) (reports new).
Proof.
  revert w. induction ins as [|i ins IH]; intros w Ht Hp; cbn [run].
  - intros [= <-]. repeat split; trivial. exists []. rewrite app_nil_r.
    split; [reflexivity|constructor].
  - destruct (step i w) as [w1|] eqn:E; [|discriminate]. intros Hr.
    destruct (step_terminated _ _ _ Ht Hp E)
      as (Hl1 & Ht1 & Hp1 & new1 & Ho1 & Hf1).
    destruct (IH w1 Ht1 Hp1 Hr) as (Hl & Ht' & Hp' & new & Ho & Hf).
    assert (HL : Len (sequence (game w1)) = Len (sequence (game w)))
      by (unfold Len; now rewrite Hl1).
    rewrite HL in Hf. repeat split; trivial; [congruence|].
    exists (new1 ++ new). rewrite Ho, Ho1, <- app_assoc.
    split; [reflexivity|]. rewrite reports_app. apply Forall_app. now split.
Qed.

(** When no timer for a next round is pending at a mismatch, everything
    reported afterwards is the length of the stored list at the mismatch
    less one, whatever happens before the report. *)
Lemma report_without_pending_round
    (w w' : World) (at_ : Z) (e : FrameEvent) (simon : Z) (sq : Sequence)
    (ins : slice Input) :
  AwaitingPlayer (game w) ->
  ~ nextRoundPending (timers w) ->
  0 <= frameUser e (game w) ->
  Next (sequence (game w)) = Some (simon, sq) ->
  0 <= simon ->
  simon <> frameUser e (game w) ->
  run (Deliver at_ (FrameEv e) :: ins) w = Some w' ->
  terminating (game w') = true /\
  list (sequence (game w')) = list (sequence (game w)) /\
  exists new,
    output w' = output w ++ new /\
    Forall (fun n => n = len (list (sequence (game w))) - 1) (reports new).
Proof.
  intros Ha Hp Hu HN Hs Hne. cbn [run step].
  destruct (_ && _); [|discriminate]. cbn [handle].
  destruct (mismatch_terminates (game w) e simon sq Ha Hu HN Hs Hne)
    as (g' & out & Hf & _ & Ht & Hsq & HL & Hsch & _).
  rewrite Hf. intros Hr.
  destruct (Next_inv _ _ _ HN) as (Hl & _).
  set (w1 := mkWorld g' (timers w ++ schedule at_ out) at_ (output w ++ out))
    in Hr.
  assert (Hp1 : ~ nextRoundPending (timers w1)).
  { unfold nextRoundPending in *. cbn [timers w1].
    rewrite map_app, schedule_callbacks, Hsch. cbn. intros Hin.
    apply in_app_or in Hin. destruct Hin as [Hin|[Hin|[]]];
      [tauto|discriminate]. }
  destruct (run_terminated ins w1 w' Ht Hp1 Hr)
    as (Hl' & Ht' & _ & new & Ho & Hfo).
  cbn [game output w1] in *. rewrite Hsq in *.
  split; trivial. split; [congruence|].
  exists (out ++ new). rewrite Ho, <- app_assoc. split; [reflexivity|].
  rewrite reports_app, (frame_reports _ _ _ _ Hf). cbn [app].
  unfold Len in Hfo. now rewrite Hl in Hfo.
Qed.

End ReportRuns.

(** C5 (the code departs from the claim).  A mismatch sets [terminating],
    but the report is computed when its timer expires.  In the run below
    the second click of round 1, at 2900, has left a second timer for a
    next round pending, due at 3900.  At the mismatch (3450) the list is
    [[2; 0]], so the length less one is 1; the pending timer appends a
    symbol at 3900, and the report at 3950 prints 2. *)
Theorem late_next_round_spoils_report :
  (exists w,
     boot 2 (round1 ++ lateClick) = Some w /\
     game w = scenario2 /\
     In (3900, CbSimonPlay) (timers w)) /\
  (exists w,
     boot 2 (round1 ++ lateClick ++ wrongPad) = Some w /\
     terminating (game w) = true /\
     list (sequence (game w)) = [2; 0] /\
     Len (sequence (game w)) - 1 = 1 /\
     In (3950, CbLongest) (timers w) /\
     reports (output w) = []) /\
  (exists w,
     boot 2 (round1 ++ lateClick ++ wrongPad ++ untilReport) = Some w /\
     terminating (game w) = true /\
     list (sequence (game w)) = [2; 0; 3] /\
     reports (output w) = [2]).
Proof.
  split; [|split]; eexists; (split; [vm_compute; reflexivity|]);
    cbn; intuition reflexivity.
Qed.
